(** * ndindex/_crt.py : the Chinese Remainder Theorem routines

    A shallow embedding of [gcdex], [prod], [_crt], [solve_congruence]
    (with its local [combine]) and [crt], followed by the properties of
    these functions.

    Python integers are unbounded: they are modelled by [Z].  Python's
    [//] and [%] on integers are floor division and the remainder that
    takes the sign of the divisor, which is what [Z.div] and [Z.modulo]
    compute for a nonzero divisor; a zero divisor raises
    [ZeroDivisionError], which the model makes explicit. *)

From Stdlib Require Import BinInt Znat Zdiv Zdivisibility ZArithRing Lia.
From Stdlib Require Import PreOmega List Bool Permutation Wf_nat.
From Equations Require Import Equations.
Import ListNotations.

Local Open Scope Z_scope.

(** ** Python values, exceptions and results *)

(** The exceptions the module can raise.  [UnboundLocalError] is the
    subclass of [NameError] that Python raises when a local variable is
    read before any assignment to it. *)
Inductive exn : Type :=
| ZeroDivisionError
| UnboundLocalError.

Definition is_NameError (e : exn) : bool :=
  match e with
  | UnboundLocalError => true
  | ZeroDivisionError => false
  end.

(** The values the public functions hand back: [None], an integer, or a
    2-tuple of integers. *)
Inductive pyval : Type :=
| PyNone
| PyInt (n : Z)
| PyTuple (a b : Z).

(** A computation either returns a value or raises. *)
Inductive res (A : Type) : Type :=
| Ok (a : A)
| Raise (e : exn).
Arguments Ok {A} a.
Arguments Raise {A} e.

Definition bind {A B : Type} (c : res A) (k : A -> res B) : res B :=
  match c with
  | Ok a => k a
  | Raise e => Raise e
  end.

Notation "x <- c ;; k" := (bind c (fun x => k))
  (at level 61, c at next level, right associativity).

(** [a // b] and [a % b]. *)
Definition floordiv (a b : Z) : res Z :=
  if b =? 0 then Raise ZeroDivisionError else Ok (a / b).

Definition pymod (a b : Z) : res Z :=
  if b =? 0 then Raise ZeroDivisionError else Ok (a mod b).

(** ** gcdex *)

(** The loop
<<
    while b:
        (c, q) = (a % b, a // b)
        (a, b, r, s, x, y) = (b, c, x - q*r, y - q*s, r, s)
>>
    over the six locals.  The divisor is nonzero inside the loop, so the
    body cannot raise. *)
Record gstate : Type := GState {
  g_a : Z; g_b : Z; g_r : Z; g_s : Z; g_x : Z; g_y : Z
}.

Definition gcdex_body (st : gstate) : gstate :=
  let c := g_a st mod g_b st in
  let q := g_a st / g_b st in
  GState (g_b st) c (g_x st - q * g_r st) (g_y st - q * g_s st)
         (g_r st) (g_s st).

(** The loop ends because the magnitude of [b] gets smaller at every
    iteration: for [b <> 0], [a % b] lies strictly between [0] and [b]. *)
Equations gcdex_loop (st : gstate) : gstate by wf (Z.abs_nat (g_b st)) lt :=
  gcdex_loop st with Z.eq_dec (g_b st) 0 => {
    | left _ => st
    | right Hb => gcdex_loop (gcdex_body st) }.
Next Obligation.
  simpl. pose proof (Z.mod_bound_or (g_a st) (g_b st) Hb). lia.
Qed.

(** [gcdex(a, b)].  The two divisions [b//abs(b)] and [a//abs(a)] sit
    behind the tests [not a] and [not b], so their divisor is nonzero and
    the function has no raising path. *)
Definition gcdex (a b : Z) : Z * Z * Z :=
  if (a =? 0) && (b =? 0) then (0, 1, 0)
  else if a =? 0 then (0, b / Z.abs b, Z.abs b)
  else if b =? 0 then (a / Z.abs a, 0, Z.abs a)
  else
    let '(a, x_sign) := if a <? 0 then (- a, -1) else (a, 1) in
    let '(b, y_sign) := if b <? 0 then (- b, -1) else (b, 1) in
    let st := gcdex_loop (GState a b 0 1 1 0) in
    (g_x st * x_sign, g_y st * y_sign, g_a st).

(** The same loop run for at most [fuel] iterations: [None] when the
    bound is reached with [b] still nonzero.  It is used to state that
    the loop ends. *)
Fixpoint gcdex_iter (fuel : nat) (st : gstate) : option gstate :=
  match fuel with
  | O => if g_b st =? 0 then Some st else None
  | S fuel' =>
      if g_b st =? 0 then Some st else gcdex_iter fuel' (gcdex_body st)
  end.

Definition gcdex_fuel (fuel : nat) (a b : Z) : option (Z * Z * Z) :=
  if (a =? 0) && (b =? 0) then Some (0, 1, 0)
  else if a =? 0 then Some (0, b / Z.abs b, Z.abs b)
  else if b =? 0 then Some (a / Z.abs a, 0, Z.abs a)
  else
    let '(a, x_sign) := if a <? 0 then (- a, -1) else (a, 1) in
    let '(b, y_sign) := if b <? 0 then (- b, -1) else (b, 1) in
    match gcdex_iter fuel (GState a b 0 1 1 0) with
    | Some st => Some (g_x st * x_sign, g_y st * y_sign, g_a st)
    | None => None
    end.

(** ** prod and _crt *)

(** [reduce(mul, seq, 1)] *)
Definition prod (seq : list Z) : Z := fold_left Z.mul seq 1.

(** Python's [zip]: it stops at the shorter sequence. *)
Definition zip {A B : Type} (l : list A) (l' : list B) : list (A * B) :=
  List.combine l l'.

(** The [for u, m in zip(U, M)] loop of [_crt], with the accumulator [v]. *)
Fixpoint _crt_loop (p v : Z) (UM : list (Z * Z)) : res Z :=
  match UM with
  | [] => Ok v
  | (u, m) :: rest =>
      e <- floordiv p m ;;
      let '(s, _, _) := gcdex e m in
      t <- pymod (u * s) m ;;
      _crt_loop p (v + e * t) rest
  end.

Definition _crt (U M : list Z) : res Z :=
  let p := prod M in
  v <- _crt_loop p 0 (zip U M) ;;
  pymod v p.

(** ** solve_congruence *)

(** The local function [combine(c1, c2)]: [Ok None] is its [return None]. *)
Definition combine (c1 c2 : Z * Z) : res (option (Z * Z)) :=
  let '(a1, m1) := c1 in
  let '(a2, m2) := c2 in
  let '(a, b, c) := (m1, a2 - a1, m2) in
  let g := Z.gcd (Z.gcd a b) c in
  a <- floordiv a g ;;
  b <- floordiv b g ;;
  c <- floordiv c g ;;
  if negb (a =? 1) then
    let '(inv_a, _, g) := gcdex a c in
    if negb (g =? 1) then Ok None
    else
      let b := b * inv_a in
      Ok (Some (a1 + m1 * b, m1 * c))
  else Ok (Some (a1 + m1 * b, m1 * c)).

(** The dictionary [uniq], keyed by modulus, as an association list in
    insertion order (the order [uniq.items()] yields). *)
Fixpoint uniq_get (m : Z) (uniq : list (Z * Z)) : option Z :=
  match uniq with
  | [] => None
  | (m', r) :: rest => if m =? m' then Some r else uniq_get m rest
  end.

(** The [for r, m in rm] loop under [if check]: [Ok None] is its
    [return None], [Ok (Some uniq)] the dictionary when the loop ends. *)
Fixpoint check_loop (rm uniq : list (Z * Z)) : res (option (list (Z * Z))) :=
  match rm with
  | [] => Ok (Some uniq)
  | (r, m) :: rest =>
      r <- pymod r m ;;
      match uniq_get m uniq with
      | Some r0 => if negb (r =? r0) then Ok None else check_loop rest uniq
      | None => check_loop rest (uniq ++ [(m, r)])
      end
  end.

(** How the [for rmi in rm] loop is left: by [break], or by exhausting
    [rm], in which case the [else] clause runs with the locals [n], [m]
    bound to the values of the last iteration, or unbound if there was
    none. *)
Inductive loop_exit : Type :=
| Broke
| Exhausted (nm : option (Z * Z)).

Fixpoint solve_loop (rv : Z * Z) (nm : option (Z * Z)) (rm : list (Z * Z))
  : res loop_exit :=
  match rm with
  | [] => Ok (Exhausted nm)
  | rmi :: rest =>
      rv' <- combine rv rmi ;;
      match rv' with
      | None => Ok Broke
      | Some (n, m) =>
          n' <- pymod n m ;;
          solve_loop (n, m) (Some (n', m)) rest
      end
  end.

(** The block under [if check]: [Ok None] is its [return None], otherwise
    [rm] is rebuilt from the items of [uniq]. *)
Definition check_pairs (rm : list (Z * Z)) : res (option (list (Z * Z))) :=
  uniq <- check_loop rm [] ;;
  match uniq with
  | None => Ok None
  | Some uniq => Ok (Some (map (fun '(m, r) => (r, m)) uniq))
  end.

(** The pairs the fold runs over: [rm] after the [if check] block, or
    [None] when that block returned [None]. *)
Definition folded_pairs (pairs : list (Z * Z)) (check : bool)
  : res (option (list (Z * Z))) :=
  if check then check_pairs pairs else Ok (Some pairs).

(** The statements from [rv = (0, 1)] on.  After a [break] the function
    falls off its end and returns [None]; the [else] clause reads [n],
    which is unbound when the loop body never ran. *)
Definition solve_fold (rm : list (Z * Z)) : res pyval :=
  ex <- solve_loop (0, 1) None rm ;;
  match ex with
  | Broke => Ok PyNone
  | Exhausted None => Raise UnboundLocalError
  | Exhausted (Some (n, _)) => Ok (PyInt n)
  end.

Definition solve_congruence (remainder_modulus_pairs : list (Z * Z))
    (check : bool) : res pyval :=
  rm <- folded_pairs remainder_modulus_pairs check ;;
  match rm with
  | None => Ok PyNone
  | Some rm => solve_fold rm
  end.

(** ** crt *)

(** [all(v % m == result % m for v, m in zip(v, m))] *)
Fixpoint all_residues (result : Z) (vm : list (Z * Z)) : res bool :=
  match vm with
  | [] => Ok true
  | (v, m) :: rest =>
      x <- pymod v m ;;
      y <- pymod result m ;;
      if x =? y then all_residues result rest else Ok false
  end.

Definition crt (m v : list Z) (check : bool) : res pyval :=
  result <- _crt v m ;;
  if check then
    ok <- all_residues result (zip v m) ;;
    if negb ok then solve_congruence (zip v m) false
    else Ok (PyInt result)
  else Ok (PyInt result).

(** ** Vocabulary of the statements *)

(** The invariant of the loop for the inputs [a0], [b0]. *)
Definition gcdex_inv (a0 b0 : Z) (st : gstate) : Prop :=
  0 <= g_a st /\ 0 <= g_b st /\
  g_x st * a0 + g_y st * b0 = g_a st /\
  g_r st * a0 + g_s st * b0 = g_b st /\
  Z.gcd (g_a st) (g_b st) = Z.gcd a0 b0.

(** The precondition of [_crt]: any two moduli at different positions
    have gcd 1. *)
Fixpoint pairwise_coprime (M : list Z) : bool :=
  match M with
  | [] => true
  | m :: M' => forallb (fun m' => Z.gcd m m' =? 1) M' && pairwise_coprime M'
  end.

Definition zsum (l : list Z) : Z := fold_right Z.add 0 l.

(** What one iteration of the loop of [_crt] adds to [v]. *)
Definition crt_term (p : Z) (um : Z * Z) : Z :=
  let '(u, m) := um in
  let e := p / m in
  let '(s, _, _) := gcdex e m in
  e * ((u * s) mod m).

(** [x] satisfies the congruence [(a, m)]. *)
Definition congruent (x : Z) (am : Z * Z) : Prop :=
  (snd am | x - fst am).

Definition nonzero_moduli (rm : list (Z * Z)) : Prop :=
  Forall (fun am => snd am <> 0) rm.

Definition positive_moduli (rm : list (Z * Z)) : Prop :=
  Forall (fun am => 0 < snd am) rm.

(** The locals [n], [m] when the loop is exhausted: those passed in if
    the loop body never ran, otherwise the last pair [rv] with its
    residue reduced. *)
Definition final_locals (nm : option (Z * Z)) (rm : list (Z * Z))
    (rv : Z * Z) : option (Z * Z) :=
  match rm with
  | [] => nm
  | _ :: _ => Some (fst rv mod snd rv, snd rv)
  end.

(** The item that the pair [(r, m)] leaves in [uniq]. *)
Definition item_of (am : Z * Z) : Z * Z := (snd am, fst am mod snd am).

(** The system has an integer solution, with Python's own test
    [x % m == a % m]. *)
Definition satisfiable (pairs : list (Z * Z)) : Prop :=
  exists x, Forall (fun am => x mod snd am = fst am mod snd am) pairs.

(** What the loop of [gcdex] keeps about the coefficients: [x], [r] and
    [y], [s] have opposite signs, the determinant [x*s - y*r] is 1 or
    -1, and after the first one or two iterations [a > b] and the
    coefficients [x], [y] are bounded by [r], [s]. *)
Definition gcdex_coeff_inv (st : gstate) : Prop :=
  g_x st * g_r st <= 0 /\ g_y st * g_s st <= 0 /\
  Z.abs (g_x st * g_s st - g_y st * g_r st) = 1 /\
  ((g_r st = 0 /\ g_s st = 1 /\ g_x st = 1 /\ g_y st = 0) \/
   (g_b st < g_a st /\
    g_r st = 1 /\ g_s st = 0 /\ g_x st = 0 /\ g_y st = 1) \/
   (g_b st < g_a st /\
    Z.abs (g_x st) <= Z.abs (g_r st) /\ Z.abs (g_y st) <= Z.abs (g_s st))).

(** [x] is a solution of the system, with Python's test on every pair. *)
Definition solves (x : Z) (pairs : list (Z * Z)) : Prop :=
  Forall (fun am => x mod snd am = fst am mod snd am) pairs.

(** [n] is the smallest nonnegative solution of the system. *)
Definition least_solution (n : Z) (pairs : list (Z * Z)) : Prop :=
  0 <= n /\ solves n pairs /\
  forall x, 0 <= x -> solves x pairs -> n <= x.

(** ** Worked examples from the docstrings *)

Example gcdex_2_3 : gcdex 2 3 = (-1, 1, 1).
Proof. vm_compute. reflexivity. Qed.

Example gcdex_10_12 : gcdex 10 12 = (-1, 1, 2).
Proof. vm_compute. reflexivity. Qed.

Example gcdex_100_2004 : gcdex 100 2004 = (-20, 1, 4).
Proof. vm_compute. reflexivity. Qed.

Example _crt_doc : _crt [49; 76; 65] [99; 97; 95] = Ok 639985.
Proof. vm_compute. reflexivity. Qed.

Example solve_congruence_no_solution :
  solve_congruence [(2, 3); (4, 6)] true = Ok PyNone.
Proof. vm_compute. reflexivity. Qed.

Example crt_unchecked : crt [12; 6; 17] [3; 4; 2] false = Ok (PyInt 954).
Proof. vm_compute. reflexivity. Qed.

Example crt_no_solution : crt [12; 6; 17] [3; 4; 2] true = Ok PyNone.
Proof. vm_compute. reflexivity. Qed.

Example crt_not_coprime : crt [3; 6] [2; 5] true = Ok (PyInt 5).
Proof. vm_compute. reflexivity. Qed.

(** ** The loop of gcdex *)

Lemma gcdex_loop_exit (st : gstate) :
  g_b st = 0 -> gcdex_loop st = st.
Proof.
  intros H. rewrite gcdex_loop_equation_1.
  destruct (Z.eq_dec (g_b st) 0) as [e | n]; [reflexivity | contradiction].
Qed.

Lemma gcdex_loop_iterate (st : gstate) :
  g_b st <> 0 -> gcdex_loop st = gcdex_loop (gcdex_body st).
Proof.
  intros H. rewrite gcdex_loop_equation_1.
  destruct (Z.eq_dec (g_b st) 0) as [e | n]; [contradiction | reflexivity].
Qed.

(** The rule of the while loop: a property kept by the body holds when
    the loop is left, and then [b] is zero. *)
Lemma gcdex_loop_rule (P : gstate -> Prop) :
  (forall st, g_b st <> 0 -> P st -> P (gcdex_body st)) ->
  forall st, P st -> P (gcdex_loop st) /\ g_b (gcdex_loop st) = 0.
Proof.
  intros Hbody.
  enough (forall k st, Z.abs_nat (g_b st) = k ->
            P st -> P (gcdex_loop st) /\ g_b (gcdex_loop st) = 0) as H
    by (intros st; exact (H _ st eq_refl)).
  intros k. induction k as [k IH] using lt_wf_ind.
  intros st Hk HP.
  destruct (Z.eq_dec (g_b st) 0) as [Hz | Hnz].
  - rewrite gcdex_loop_exit by assumption. split; assumption.
  - rewrite gcdex_loop_iterate by assumption.
    apply (IH (Z.abs_nat (g_b (gcdex_body st)))).
    + subst k. simpl.
      pose proof (Z.mod_bound_or (g_a st) (g_b st) Hnz). lia.
    + reflexivity.
    + apply Hbody; assumption.
Qed.

Lemma gcdex_inv_init (a b : Z) :
  0 <= a -> 0 <= b -> gcdex_inv a b (GState a b 0 1 1 0).
Proof.
  intros Ha Hb. unfold gcdex_inv. cbn [g_a g_b g_r g_s g_x g_y].
  repeat split; try lia; reflexivity.
Qed.

Lemma gcdex_inv_body (a0 b0 : Z) (st : gstate) :
  g_b st <> 0 -> gcdex_inv a0 b0 st -> gcdex_inv a0 b0 (gcdex_body st).
Proof.
  intros Hb (Ha & Hb0 & Hx & Hr & Hg).
  unfold gcdex_inv, gcdex_body. cbn [g_a g_b g_r g_s g_x g_y].
  pose proof (Z.mod_pos_bound (g_a st) (g_b st) ltac:(lia)) as Hm.
  pose proof (Z.div_mod (g_a st) (g_b st) Hb) as Hdm.
  repeat split; try lia.
  rewrite <- Hg, (Z.gcd_comm (g_b st)), Z.gcd_mod by assumption.
  apply Z.gcd_comm.
Qed.

Lemma gcdex_loop_spec (a b : Z) :
  0 <= a -> 0 <= b ->
  let st := gcdex_loop (GState a b 0 1 1 0) in
  g_x st * a + g_y st * b = g_a st /\ g_a st = Z.gcd a b.
Proof.
  intros Ha Hb st.
  destruct (gcdex_loop_rule (gcdex_inv a b) (gcdex_inv_body a b)
              (GState a b 0 1 1 0) (gcdex_inv_init a b Ha Hb))
    as [(Ha' & _ & Hx & _ & Hg) Hz].
  fold st in Ha', Hx, Hg, Hz.
  split; [assumption|].
  rewrite <- Hg, Hz, Z.gcd_0_r. lia.
Qed.

Lemma sign_floordiv (b : Z) : b <> 0 -> b / Z.abs b = Z.sgn b.
Proof.
  intros Hb. destruct (Z.lt_trichotomy b 0) as [H | [H | H]]; [|lia|].
  - rewrite Z.abs_neq by lia. rewrite Z.sgn_neg by lia.
    replace b with (-1 * - b) at 1 by ring.
    apply Z.div_mul. lia.
  - rewrite Z.abs_eq by lia. rewrite Z.sgn_pos by lia.
    apply Z.div_same. lia.
Qed.

(** Bezout's identity and the gcd, for all inputs. *)
Lemma gcdex_spec (a b : Z) :
  let '(x, y, g) := gcdex a b in
  x * a + y * b = g /\ g = Z.gcd a b.
Proof.
  unfold gcdex.
  destruct (Z.eqb_spec a 0) as [-> | Ha]; simpl.
  - destruct (Z.eqb_spec b 0) as [-> | Hb]; simpl.
    + split; reflexivity.
    + rewrite sign_floordiv by assumption. split; lia.
  - destruct (Z.eqb_spec b 0) as [-> | Hb].
    + rewrite sign_floordiv by assumption. rewrite Z.gcd_0_r. split; lia.
    + destruct (Z.ltb_spec a 0) as [Han | Hap];
        destruct (Z.ltb_spec b 0) as [Hbn | Hbp].
      * destruct (gcdex_loop_spec (- a) (- b) ltac:(lia) ltac:(lia))
          as [Hx Hg].
        rewrite Z.gcd_opp_l, Z.gcd_opp_r in Hg. split; [lia | assumption].
      * destruct (gcdex_loop_spec (- a) b ltac:(lia) ltac:(lia)) as [Hx Hg].
        rewrite Z.gcd_opp_l in Hg. split; [lia | assumption].
      * destruct (gcdex_loop_spec a (- b) ltac:(lia) ltac:(lia)) as [Hx Hg].
        rewrite Z.gcd_opp_r in Hg. split; [lia | assumption].
      * destruct (gcdex_loop_spec a b ltac:(lia) ltac:(lia)) as [Hx Hg].
        split; [lia | assumption].
Qed.

(** C3: for all integers [a] and [b], zero and negative ones included,
    [gcdex(a, b)] returns [(x, y, g)] with [x*a + y*b == g],
    [g == gcd(|a|, |b|)] and [g >= 0]. *)
Theorem gcdex_bezout (a b : Z) :
  let '(x, y, g) := gcdex a b in
  x * a + y * b = g /\ g = Z.gcd (Z.abs a) (Z.abs b) /\ 0 <= g.
Proof.
  pose proof (gcdex_spec a b) as H.
  destruct (gcdex a b) as [[x y] g].
  destruct H as [Hbez Hg].
  rewrite Z.gcd_abs_l, Z.gcd_abs_r.
  repeat split; try assumption.
  rewrite Hg. apply Z.gcd_nonneg.
Qed.

(** C7: [gcdex(0, 0) == (0, 1, 0)]; for [b] nonzero
    [gcdex(0, b) == (0, sign(b), |b|)]; for [a] nonzero
    [gcdex(a, 0) == (sign(a), 0, |a|)]. *)
Theorem gcdex_zero_cases :
  gcdex 0 0 = (0, 1, 0) /\
  (forall b, b <> 0 -> gcdex 0 b = (0, Z.sgn b, Z.abs b)) /\
  (forall a, a <> 0 -> gcdex a 0 = (Z.sgn a, 0, Z.abs a)).
Proof.
  split; [reflexivity | split].
  - intros b Hb. unfold gcdex. simpl.
    destruct (Z.eqb_spec b 0) as [E | _]; [contradiction|].
    rewrite sign_floordiv by assumption. reflexivity.
  - intros a Ha. unfold gcdex.
    destruct (Z.eqb_spec a 0) as [E | _]; [contradiction|]. simpl.
    rewrite sign_floordiv by assumption. reflexivity.
Qed.

Lemma gcdex_zero_cases_witness :
  gcdex 0 (-5) = (0, -1, 5) /\ gcdex 7 0 = (1, 0, 7).
Proof.
  destruct gcdex_zero_cases as (_ & H0b & Ha0).
  split.
  - apply (H0b (-5)). lia.
  - apply (Ha0 7). lia.
Defined.

(** ** The loop of gcdex ends *)

Lemma gcdex_iter_enough (fuel : nat) :
  forall st, (Z.abs_nat (g_b st) <= fuel)%nat ->
  gcdex_iter fuel st = Some (gcdex_loop st).
Proof.
  induction fuel as [| fuel IH]; intros st Hle; simpl.
  - destruct (Z.eqb_spec (g_b st) 0) as [Hz | Hnz]; [|lia].
    rewrite gcdex_loop_exit by assumption. reflexivity.
  - destruct (Z.eqb_spec (g_b st) 0) as [Hz | Hnz].
    + rewrite gcdex_loop_exit by assumption. reflexivity.
    + rewrite (gcdex_loop_iterate st Hnz). apply IH.
      unfold gcdex_body. cbn [g_b].
      pose proof (Z.mod_bound_or (g_a st) (g_b st) Hnz). lia.
Qed.

(** C9: [gcdex] terminates on every pair of integers.  Inside the loop,
    where the remainder [b] is positive after the normalization of the
    signs, one iteration leaves a remainder that is nonnegative and
    strictly smaller; hence a run bounded by [|b|] iterations never
    reaches its bound and yields the triple [gcdex(a, b)]. *)
Theorem gcdex_terminates :
  (forall st, 0 < g_b st -> 0 <= g_b (gcdex_body st) < g_b st) /\
  (forall a b fuel, (Z.abs_nat b <= fuel)%nat ->
     gcdex_fuel fuel a b = Some (gcdex a b)).
Proof.
  split.
  - intros st Hb. unfold gcdex_body. cbn [g_b].
    apply Z.mod_pos_bound. assumption.
  - intros a b fuel Hfuel. unfold gcdex_fuel, gcdex.
    destruct ((a =? 0) && (b =? 0)); [reflexivity|].
    destruct (a =? 0); [reflexivity|].
    destruct (b =? 0); [reflexivity|].
    destruct (a <? 0); destruct (Z.ltb_spec b 0);
      rewrite gcdex_iter_enough by (cbn [g_b]; lia); reflexivity.
Qed.

Lemma gcdex_terminates_witness :
  0 <= g_b (gcdex_body (GState 100 2004 0 1 1 0)) < 2004 /\
  gcdex_fuel 2004 100 2004 = Some (-20, 1, 4).
Proof.
  destruct gcdex_terminates as [Hdec Hrun].
  split.
  - apply (Hdec (GState 100 2004 0 1 1 0)). simpl. lia.
  - rewrite (Hrun 100 2004 2004%nat) by (vm_compute; lia).
    vm_compute. reflexivity.
Defined.

(** ** Products and pairwise coprime moduli *)

Lemma fold_left_mul (l : list Z) (a : Z) :
  fold_left Z.mul l a = a * prod l.
Proof.
  unfold prod. revert a.
  induction l as [| x l IH]; intros a; cbn [fold_left].
  - ring.
  - rewrite IH, (IH (1 * x)). ring.
Qed.

Lemma prod_cons (m : Z) (M : list Z) : prod (m :: M) = m * prod M.
Proof.
  unfold prod at 1. cbn [fold_left]. rewrite fold_left_mul. ring.
Qed.

Lemma prod_app (M1 M2 : list Z) : prod (M1 ++ M2) = prod M1 * prod M2.
Proof.
  induction M1 as [| m M1 IH]; cbn [app].
  - change (prod []) with 1. ring.
  - rewrite !prod_cons, IH. ring.
Qed.

Lemma prod_pos (M : list Z) : Forall (fun m => 0 < m) M -> 0 < prod M.
Proof.
  induction 1 as [| m M Hm _ IH].
  - reflexivity.
  - rewrite prod_cons. lia.
Qed.

Lemma prod_split (M1 M2 : list Z) (m : Z) :
  prod (M1 ++ m :: M2) = m * prod (M1 ++ M2).
Proof. rewrite !prod_app, prod_cons. ring. Qed.

Lemma prod_coprime (L : list Z) (m : Z) :
  Forall (fun m' => Z.gcd m m' = 1) L -> Z.gcd (prod L) m = 1.
Proof.
  induction 1 as [| m' L Hm' _ IH].
  - change (prod []) with 1. apply Z.gcd_1_l.
  - rewrite prod_cons. apply Z.coprime_mul_l; unfold Z.coprime.
    + rewrite Z.gcd_comm. assumption.
    + assumption.
Qed.

Lemma pairwise_coprime_split (M1 M2 : list Z) (m : Z) :
  pairwise_coprime (M1 ++ m :: M2) = true ->
  Forall (fun m' => Z.gcd m m' = 1) (M1 ++ M2).
Proof.
  induction M1 as [| x M1 IH]; simpl; intros H;
    apply andb_prop in H; destruct H as [Hall Hrest].
  - rewrite forallb_forall in Hall. apply Forall_forall.
    intros y Hy. apply Z.eqb_eq. apply Hall. assumption.
  - constructor.
    + rewrite forallb_forall in Hall. rewrite Z.gcd_comm.
      apply Z.eqb_eq. apply Hall. apply in_or_app. right. left. reflexivity.
    + apply IH. assumption.
Qed.

Lemma zsum_app (l1 l2 : list Z) : zsum (l1 ++ l2) = zsum l1 + zsum l2.
Proof.
  induction l1 as [| x l1 IH]; simpl; [reflexivity|].
  unfold zsum in *. simpl. rewrite IH. ring.
Qed.

Lemma zsum_divide (d : Z) (l : list Z) :
  Forall (fun x => (d | x)) l -> (d | zsum l).
Proof.
  induction 1 as [| x l Hx _ IH]; unfold zsum; simpl.
  - apply Z.divide_0_r.
  - apply Z.divide_add_r; assumption.
Qed.

Lemma zip_app {A B : Type} (l1 l2 : list A) (k1 k2 : list B) :
  length l1 = length k1 ->
  zip (l1 ++ l2) (k1 ++ k2) = zip l1 k1 ++ zip l2 k2.
Proof.
  unfold zip. revert k1.
  induction l1 as [| a l1 IH]; intros [| b k1] Hlen; simpl in *;
    try discriminate; [reflexivity|].
  rewrite IH by lia. reflexivity.
Qed.

(** ** _crt *)

Lemma _crt_loop_sum (p : Z) (UM : list (Z * Z)) :
  Forall (fun um => snd um <> 0) UM ->
  forall v, _crt_loop p v UM = Ok (v + zsum (map (crt_term p) UM)).
Proof.
  induction 1 as [| [u m] UM Hm _ IH]; intros v; simpl.
  - unfold zsum. simpl. f_equal. ring.
  - simpl in Hm. unfold floordiv, pymod.
    destruct (Z.eqb_spec m 0) as [E | _]; [contradiction|]. cbn [bind].
    destruct (gcdex (p / m) m) as [[s t] g].
    rewrite IH. f_equal. ring.
Qed.

(** The term of the pair [(u, m)] is congruent to [u] modulo [m] when
    [p/m] is coprime to [m]. *)
Lemma crt_term_self (p u m : Z) :
  m <> 0 -> Z.gcd (p / m) m = 1 -> (m | crt_term p (u, m) - u).
Proof.
  intros Hm Hg. unfold crt_term.
  pose proof (gcdex_spec (p / m) m) as H.
  destruct (gcdex (p / m) m) as [[s t] g].
  destruct H as [Hbez Hgcd]. rewrite Hgcd, Hg in Hbez. clear Hgcd g.
  exists (- (p / m) * (u * s / m) - u * t).
  rewrite Z.mod_eq by assumption.
  assert (E : forall X, p / m * (u * s - m * X) - u
                = (- (p / m) * X - u * t) * m
                  + u * (s * (p / m) + t * m - 1)) by (intros X; ring).
  rewrite E, Hbez. ring.
Qed.

(** The term of another pair [(u', m')] is a multiple of [m] when [m] and
    [m'] are coprime divisors of [p]. *)
Lemma crt_term_other (p u' m' m : Z) :
  m' <> 0 -> (m | p) -> (m' | p) -> Z.gcd m m' = 1 ->
  (m | crt_term p (u', m')).
Proof.
  intros Hm' Hmp Hm'p Hg. unfold crt_term.
  destruct (gcdex (p / m') m') as [[s t] g].
  apply Z.divide_mul_l.
  destruct Hm'p as [k Hk]. subst p. rewrite Z.div_mul by assumption.
  apply Z.gauss with (m := m'); [|assumption].
  rewrite Z.mul_comm. assumption.
Qed.

Lemma in_divide_prod (m : Z) (M : list Z) : In m M -> (m | prod M).
Proof.
  intros Hin. apply in_split in Hin. destruct Hin as (M1 & M2 & ->).
  rewrite prod_split. apply Z.divide_factor_l.
Qed.

Lemma range_positive (U M : list Z) :
  Forall2 (fun u m => 0 <= u < m) U M -> Forall (fun m => 0 < m) M.
Proof. induction 1; constructor; [lia | assumption]. Qed.

Lemma zip_moduli_nonzero (U M : list Z) :
  Forall (fun m => m <> 0) M -> Forall (fun um => snd um <> 0) (zip U M).
Proof.
  intros HM. rewrite Forall_forall in *. intros [u m] Hin.
  apply in_combine_r in Hin. simpl. apply HM. assumption.
Qed.

(** Every term of the sum but the one of the pair at hand vanishes
    modulo [m]. *)
Lemma other_terms_divide (p m : Z) (U' M' : list Z) :
  (m | p) ->
  Forall (fun m' => m' <> 0 /\ (m' | p) /\ Z.gcd m m' = 1) M' ->
  (m | zsum (map (crt_term p) (zip U' M'))).
Proof.
  intros Hmp HM'. apply zsum_divide. rewrite Forall_forall in *.
  intros x Hx. apply in_map_iff in Hx. destruct Hx as ([u' m'] & <- & Hin).
  apply in_combine_r in Hin. destruct (HM' m' Hin) as (H0 & Hd & Hg).
  apply crt_term_other; assumption.
Qed.

Lemma prod_nonzero (M : list Z) : Forall (fun m => m <> 0) M -> prod M <> 0.
Proof.
  induction 1 as [| m M Hm _ IH].
  - discriminate.
  - rewrite prod_cons. apply Z.neq_mul_0. split; assumption.
Qed.

(** The Chinese remainder theorem for [_crt]: on pairwise coprime nonzero
    moduli it does not raise, and its value is reduced modulo the product
    and congruent to every residue modulo the modulus at the same
    position. *)
Lemma _crt_congruences (U M : list Z) :
  pairwise_coprime M = true ->
  Forall (fun m => m <> 0) M ->
  exists v, _crt U M = Ok v /\ prod M <> 0 /\ v = v mod prod M /\
    forall i u m,
      nth_error U i = Some u -> nth_error M i = Some m -> (m | v - u).
Proof.
  intros Hcop Hnz.
  pose proof (prod_nonzero M Hnz) as Hp.
  unfold _crt. rewrite _crt_loop_sum by (apply zip_moduli_nonzero, Hnz).
  cbn [bind]. unfold pymod.
  destruct (Z.eqb_spec (prod M) 0) as [E | _]; [contradiction|].
  eexists. split; [reflexivity|]. split; [assumption|].
  split; [symmetry; apply Z.mod_mod; assumption|].
  intros i u m Hu Hm.
  apply nth_error_split in Hu. destruct Hu as (U1 & U2 & -> & HlU).
  apply nth_error_split in Hm. destruct Hm as (M1 & M2 & -> & HlM).
  rewrite zip_app by lia.
  change (zip (u :: U2) (m :: M2)) with ((u, m) :: zip U2 M2).
  rewrite map_app, zsum_app. cbn [map].
  change (zsum (crt_term (prod (M1 ++ m :: M2)) (u, m)
                  :: map (crt_term (prod (M1 ++ m :: M2))) (zip U2 M2)))
    with (crt_term (prod (M1 ++ m :: M2)) (u, m)
          + zsum (map (crt_term (prod (M1 ++ m :: M2))) (zip U2 M2))).
  set (p := prod (M1 ++ m :: M2)) in *.
  assert (Hm0 : m <> 0).
  { rewrite Forall_forall in Hnz. apply Hnz, in_elt. }
  assert (Hmp : (m | p)) by (apply in_divide_prod, in_elt).
  pose proof (pairwise_coprime_split M1 M2 m Hcop) as Hothers.
  assert (Hside : forall M', incl M' (M1 ++ M2) ->
             Forall (fun m' => m' <> 0 /\ (m' | p) /\ Z.gcd m m' = 1) M').
  { intros M' Hincl. apply Forall_forall. intros m' Hin.
    apply Hincl in Hin.
    assert (Hin' : In m' (M1 ++ m :: M2)).
    { apply in_app_or in Hin. apply in_or_app.
      destruct Hin; [left | right; right]; assumption. }
    rewrite Forall_forall in Hnz, Hothers.
    repeat split.
    - apply Hnz. assumption.
    - apply in_divide_prod. assumption.
    - apply Hothers. assumption. }
  pose proof (other_terms_divide p m U1 M1 Hmp
                (Hside M1 (incl_appl M2 (incl_refl M1)))) as HA.
  pose proof (other_terms_divide p m U2 M2 Hmp
                (Hside M2 (incl_appr M1 (incl_refl M2)))) as HB.
  assert (Hself : (m | crt_term p (u, m) - u)).
  { apply crt_term_self; [assumption|].
    unfold p. rewrite prod_split, Z.mul_comm, Z.div_mul by assumption.
    apply prod_coprime. assumption. }
  set (A := zsum (map (crt_term p) (zip U1 M1))) in *.
  set (B := zsum (map (crt_term p) (zip U2 M2))) in *.
  set (T := crt_term p (u, m)) in *.
  rewrite Z.mod_eq by assumption.
  destruct HA as [ka HA], HB as [kb HB], Hself as [kt HT], Hmp as [kp Hkp].
  exists (ka + kt + kb - kp * ((0 + (A + (T + B))) / p)).
  rewrite Hkp at 1. lia.
Qed.

(** C4: for [n >= 1], pairwise-coprime positive moduli [M] of length [n]
    and residues [U] with [0 <= U[i] < M[i]], the value [v = _crt(U, M)]
    satisfies [v mod M[i] == U[i]] for every [i] and
    [0 <= v < product(M)]. *)
Theorem _crt_round_trip (U M : list Z) :
  (1 <= length M)%nat ->
  pairwise_coprime M = true ->
  Forall2 (fun u m => 0 <= u < m) U M ->
  exists v, _crt U M = Ok v /\
    (forall i u m,
        nth_error U i = Some u -> nth_error M i = Some m -> v mod m = u) /\
    0 <= v < prod M.
Proof.
  intros _ Hcop Hrange.
  pose proof (range_positive U M Hrange) as Hpos.
  pose proof (prod_pos M Hpos) as Hp.
  destruct (_crt_congruences U M Hcop) as (v & Hv & _ & Hred & Hcong).
  { eapply Forall_impl; [|exact Hpos]. simpl. intros; lia. }
  exists v. split; [assumption|]. split.
  2:{ rewrite Hred. apply Z.mod_pos_bound. assumption. }
  intros i u m Hu Hm.
  assert (Hum : 0 <= u < m).
  { clear - Hrange Hu Hm. revert i Hu Hm.
    induction Hrange as [| u' m' U M H _ IH]; intros [| i] Hu Hm;
      simpl in *; try discriminate.
    - injection Hu as ->. injection Hm as ->. assumption.
    - eapply IH; eassumption. }
  destruct (Hcong i u m Hu Hm) as [k Hk].
  replace v with (u + k * m) by lia.
  rewrite Z.mod_add by lia. apply Z.mod_small. assumption.
Qed.

Lemma _crt_round_trip_witness :
  exists v, _crt [49; 76; 65] [99; 97; 95] = Ok v /\
    (forall i u m,
        nth_error [49; 76; 65] i = Some u ->
        nth_error [99; 97; 95] i = Some m -> v mod m = u) /\
    0 <= v < prod [99; 97; 95].
Proof.
  apply (_crt_round_trip [49; 76; 65] [99; 97; 95]).
  - simpl. lia.
  - vm_compute. reflexivity.
  - repeat constructor; lia.
Defined.

(** ** solve_congruence: combine *)

(** The three-way gcd divides its operands; the quotients are named. *)
Lemma gcd3_quotients (m1 b m2 : Z) :
  m2 <> 0 ->
  let g := Z.gcd (Z.gcd m1 b) m2 in
  0 < g /\ m1 = m1 / g * g /\ b = b / g * g /\ m2 = m2 / g * g.
Proof.
  intros Hm2 g.
  assert (Hg : 0 < g).
  { pose proof (Z.gcd_nonneg (Z.gcd m1 b) m2).
    destruct (Z.eq_dec g 0) as [E | N]; [|fold g in H; lia].
    apply Z.gcd_eq_0_r in E. contradiction. }
  assert (Hd : forall z, (g | z) -> z = z / g * g).
  { intros z [k ->]. rewrite Z.div_mul by lia. reflexivity. }
  split; [assumption|].
  pose proof (Z.gcd_divide_l (Z.gcd m1 b) m2) as H12.
  pose proof (Z.gcd_divide_r (Z.gcd m1 b) m2) as H3.
  pose proof (Z.gcd_divide_l m1 b) as H1.
  pose proof (Z.gcd_divide_r m1 b) as H2.
  fold g in H12, H3.
  repeat split; apply Hd.
  - exact (Z.divide_trans _ _ _ H12 H1).
  - exact (Z.divide_trans _ _ _ H12 H2).
  - assumption.
Qed.

(** What [combine] guarantees for nonzero moduli: it does not raise, and
    a pair it returns has a nonzero modulus that both moduli divide and a
    residue that satisfies both congruences. *)
Lemma combine_sound (a1 m1 a2 m2 : Z) :
  m1 <> 0 -> m2 <> 0 ->
  combine (a1, m1) (a2, m2) = Ok None \/
  exists a m,
    combine (a1, m1) (a2, m2) = Ok (Some (a, m)) /\
    m <> 0 /\ (m1 | m) /\ (m2 | m) /\
    (m1 | a - a1) /\ (m2 | a - a2) /\
    (0 < m1 -> 0 < m2 -> 0 < m).
Proof.
  intros Hm1 Hm2. unfold combine.
  destruct (gcd3_quotients m1 (a2 - a1) m2 Hm2) as (Hg & Ea & Eb & Ec).
  set (g := Z.gcd (Z.gcd m1 (a2 - a1)) m2) in *.
  unfold floordiv.
  destruct (Z.eqb_spec g 0) as [E | _]; [lia|]. cbn [bind].
  set (ka := m1 / g) in *. set (kb := (a2 - a1) / g) in *.
  set (kc := m2 / g) in *.
  clearbody ka kb kc g. subst m1 m2.
  assert (Hkc : kc <> 0) by (intros E; apply Hm2; rewrite E; ring).
  assert (Hm : ka * g * kc <> 0) by (apply Z.neq_mul_0; split; assumption).
  assert (Hm2m : (kc * g | ka * g * kc)) by (exists ka; ring).
  assert (Hpos : 0 < ka * g -> 0 < kc * g -> 0 < ka * g * kc) by nia.
  destruct (Z.eqb_spec ka 1) as [Hka | Hka]; cbn [negb].
  - right. exists (a1 + ka * g * kb), (ka * g * kc).
    repeat split; try assumption.
    + apply Z.divide_factor_l.
    + exists kb. ring.
    + exists 0. subst ka. lia.
  - pose proof (gcdex_spec ka kc) as Hbez.
    destruct (gcdex ka kc) as [[inv_a t] g2].
    destruct Hbez as [Hbez _].
    destruct (Z.eqb_spec g2 1) as [Hg2 | Hg2]; cbn [negb].
    + right. exists (a1 + ka * g * (kb * inv_a)), (ka * g * kc).
      repeat split; try assumption.
      * apply Z.divide_factor_l.
      * exists (kb * inv_a). ring.
      * exists (- (kb * t)). rewrite Hg2 in Hbez.
        replace (a1 + ka * g * (kb * inv_a) - a2)
          with (ka * g * (kb * inv_a) - (a2 - a1)) by ring.
        rewrite Eb.
        replace (ka * g * (kb * inv_a) - kb * g)
          with (kb * g * (inv_a * ka + t * kc - 1) - kb * t * (kc * g))
          by ring.
        rewrite Hbez. ring.
    + left. reflexivity.
Qed.

(** ** solve_congruence: the fold *)

(** The loop on nonzero moduli: it does not raise; when it is exhausted,
    the last [rv] has a nonzero modulus, refines the initial [rv] and
    satisfies every pair that was folded in. *)
Lemma solve_loop_sound (rm : list (Z * Z)) :
  forall rv nm,
    snd rv <> 0 -> nonzero_moduli rm ->
    solve_loop rv nm rm = Ok Broke \/
    exists rv',
      solve_loop rv nm rm = Ok (Exhausted (final_locals nm rm rv')) /\
      (rm = [] -> rv' = rv) /\
      snd rv' <> 0 /\ (snd rv | snd rv') /\ congruent (fst rv') rv /\
      Forall (fun am => (snd am | snd rv') /\ congruent (fst rv') am) rm /\
      (0 < snd rv -> positive_moduli rm -> 0 < snd rv').
Proof.
  unfold nonzero_moduli, positive_moduli, congruent.
  induction rm as [| [a2 m2] rest IH]; intros [a1 m1] nm Hm1 Hnz.
  - right. exists (a1, m1). cbn [solve_loop final_locals fst snd].
    repeat split; try assumption.
    + apply Z.divide_refl.
    + exists 0. ring.
    + constructor.
    + intros H _. exact H.
  - inversion Hnz as [| ? ? Hm2 Hrest]; subst. cbn [fst snd] in *.
    cbn [solve_loop].
    destruct (combine_sound a1 m1 a2 m2 Hm1 Hm2)
      as [-> | (a & m & -> & Hm & H1m & H2m & H1a & H2a & Hpos)];
      cbn [bind]; [left; reflexivity|].
    unfold pymod. destruct (Z.eqb_spec m 0) as [E | _]; [contradiction|].
    cbn [bind].
    destruct (IH (a, m) (Some (a mod m, m)) Hm Hrest)
      as [-> | (rv' & -> & Hnil & Hm' & Hmm' & Hc & Hall & Hpos')];
      [left; reflexivity|].
    right. exists rv'. cbn [fst snd] in *.
    split.
    { f_equal. f_equal. destruct rest as [| x rest'];
        cbn [final_locals]; [|reflexivity].
      rewrite (Hnil eq_refl). reflexivity. }
    split; [discriminate|].
    split; [assumption|].
    assert (Hvia : forall d z, (d | m) -> (d | a - z) -> (d | fst rv' - z)).
    { intros d z Hd Hz.
      replace (fst rv' - z) with ((fst rv' - a) + (a - z)) by ring.
      apply Z.divide_add_r; [|assumption].
      exact (Z.divide_trans _ _ _ Hd Hc). }
    repeat split.
    + exact (Z.divide_trans _ _ _ H1m Hmm').
    + apply Hvia; assumption.
    + constructor; [|assumption]. cbn [fst snd]. split.
      * exact (Z.divide_trans _ _ _ H2m Hmm').
      * apply Hvia; assumption.
    + intros Hp1 Hp. inversion Hp; subst. apply Hpos'; [|assumption].
      apply Hpos; assumption.
Qed.

(** ** solve_congruence: the pass over [uniq] *)

Lemma uniq_get_In (m : Z) (uniq : list (Z * Z)) (r : Z) :
  uniq_get m uniq = Some r -> In (m, r) uniq.
Proof.
  induction uniq as [| [m' r'] uniq IH]; simpl; [discriminate|].
  destruct (Z.eqb_spec m m') as [-> | _].
  - intros [= ->]. left. reflexivity.
  - intros H. right. apply IH. assumption.
Qed.

(** On nonzero moduli the pass does not raise.  When it ends without
    [return None], the dictionary has grown, holds the item of every
    pair, holds nothing else, and is empty only if nothing was there. *)
Lemma check_loop_sound (rm : list (Z * Z)) :
  forall uniq,
    nonzero_moduli rm ->
    check_loop rm uniq = Ok None \/
    exists uniq',
      check_loop rm uniq = Ok (Some uniq') /\
      incl uniq uniq' /\
      Forall (fun am => In (item_of am) uniq') rm /\
      (forall mr, In mr uniq' ->
                  In mr uniq \/ exists am, In am rm /\ mr = item_of am) /\
      (uniq' = [] -> rm = [] /\ uniq = []).
Proof.
  unfold nonzero_moduli.
  induction rm as [| [r m] rest IH]; intros uniq Hnz.
  - right. exists uniq. cbn [check_loop].
    repeat split; try reflexivity; try assumption.
    + apply incl_refl.
    + constructor.
    + intros mr H. left. assumption.
  - inversion Hnz as [| ? ? Hm Hrest]; subst. cbn [snd] in Hm.
    cbn [check_loop]. unfold pymod.
    destruct (Z.eqb_spec m 0) as [E | _]; [contradiction|]. cbn [bind].
    destruct (uniq_get m uniq) as [r0 |] eqn:Hget.
    + destruct (Z.eqb_spec (r mod m) r0) as [Hr | Hr]; cbn [negb];
        [|left; reflexivity].
      destruct (IH uniq Hrest)
        as [-> | (uniq' & -> & Hincl & Hall & Horig & Hempty)];
        [left; reflexivity|].
      right. exists uniq'. split; [reflexivity|].
      split; [assumption|]. split; [|split].
      * constructor; [|assumption].
        apply Hincl. unfold item_of. cbn [fst snd]. rewrite Hr.
        apply uniq_get_In. assumption.
      * intros mr Hin. destruct (Horig mr Hin) as [H | (am & Ham & ->)].
        -- left. assumption.
        -- right. exists am. split; [right; assumption | reflexivity].
      * intros E. destruct (Hempty E) as [_ ->]. discriminate.
    + destruct (IH (uniq ++ [(m, r mod m)]) Hrest)
        as [-> | (uniq' & -> & Hincl & Hall & Horig & Hempty)];
        [left; reflexivity|].
      right. exists uniq'. split; [reflexivity|].
      split; [|split; [|split]].
      * intros x Hx. apply Hincl. apply in_or_app. left. assumption.
      * constructor; [|assumption].
        apply Hincl. apply in_or_app. right. left. reflexivity.
      * intros mr Hin. destruct (Horig mr Hin) as [H | (am & Ham & ->)].
        -- apply in_app_or in H. destruct H as [H | [<- | []]].
           ++ left. assumption.
           ++ right. exists (r, m). split; [left|]; reflexivity.
        -- right. exists am. split; [right; assumption | reflexivity].
      * intros E. destruct (Hempty E) as [_ H].
        destruct uniq; discriminate.
Qed.

Lemma congruent_mod (x r m : Z) :
  m <> 0 -> (congruent x (r mod m, m) <-> congruent x (r, m)).
Proof.
  intros Hm. unfold congruent. cbn [fst snd].
  rewrite Z.mod_eq by assumption.
  split; intros [k Hk].
  - exists (k - r / m). lia.
  - exists (k + r / m). lia.
Qed.

(** The block under [if check], on nonzero moduli. *)
Lemma check_pairs_sound (rm : list (Z * Z)) :
  nonzero_moduli rm ->
  check_pairs rm = Ok None \/
  exists rm',
    check_pairs rm = Ok (Some rm') /\
    nonzero_moduli rm' /\
    (positive_moduli rm -> positive_moduli rm') /\
    (rm <> [] -> rm' <> []) /\
    (forall x, Forall (congruent x) rm' <-> Forall (congruent x) rm).
Proof.
  intros Hnz. unfold check_pairs.
  destruct (check_loop_sound rm [] Hnz)
    as [-> | (uniq & -> & _ & Hall & Horig & Hempty)];
    [left; reflexivity|].
  right. cbn [bind]. eexists. split; [reflexivity|].
  assert (Hfrom : forall am', In am' (map (fun '(m, r) => (r, m)) uniq) ->
            exists am, In am rm /\ am' = (fst am mod snd am, snd am)).
  { intros am' Hin. apply in_map_iff in Hin.
    destruct Hin as ([m r] & <- & Hin).
    destruct (Horig _ Hin) as [[] | (am & Ham & E)].
    exists am. split; [assumption|].
    unfold item_of in E. injection E as -> ->. reflexivity. }
  unfold nonzero_moduli, positive_moduli in *.
  rewrite Forall_forall in Hnz.
  repeat split.
  - apply Forall_forall. intros am' Hin.
    destruct (Hfrom am' Hin) as (am & Ham & ->). cbn [snd].
    apply Hnz. assumption.
  - intros Hpos. rewrite Forall_forall in Hpos. apply Forall_forall.
    intros am' Hin. destruct (Hfrom am' Hin) as (am & Ham & ->).
    cbn [snd]. apply Hpos. assumption.
  - intros Hne E. apply map_eq_nil in E.
    destruct (Hempty E) as [H _]. contradiction.
  - intros Hx. rewrite Forall_forall in Hx, Hall. apply Forall_forall.
    intros [r m] Hin. apply (congruent_mod x r m (Hnz _ Hin)).
    apply Hx. apply in_map_iff. exists (m, r mod m).
    split; [reflexivity|]. apply (Hall _ Hin).
  - intros Hx. rewrite Forall_forall in Hx. apply Forall_forall.
    intros am' Hin. destruct (Hfrom am' Hin) as ([r m] & Ham & ->).
    cbn [fst snd]. apply congruent_mod; [apply (Hnz _ Ham)|].
    apply Hx. assumption.
Qed.

(** ** solve_congruence: no solution is lost *)

Lemma gcd3_quotients_coprime (m1 b m2 : Z) :
  m2 <> 0 ->
  let g := Z.gcd (Z.gcd m1 b) m2 in
  Z.gcd (Z.gcd (m1 / g) (b / g)) (m2 / g) = 1.
Proof.
  intros Hm2 g.
  destruct (gcd3_quotients m1 b m2 Hm2) as (Hg & Ea & Eb & Ec).
  fold g in Hg, Ea, Eb, Ec.
  assert (E : g = Z.gcd (Z.gcd (m1 / g) (b / g)) (m2 / g) * g).
  { rewrite <- !Z.gcd_mul_mono_r_nonneg by lia.
    rewrite <- Ea, <- Eb, <- Ec. reflexivity. }
  nia.
Qed.

(** A common solution [x] of two congruences keeps [combine] from
    returning [None], and satisfies the pair it returns. *)
Lemma combine_complete (a1 m1 a2 m2 x : Z) :
  m1 <> 0 -> m2 <> 0 ->
  congruent x (a1, m1) -> congruent x (a2, m2) ->
  exists a m,
    combine (a1, m1) (a2, m2) = Ok (Some (a, m)) /\ congruent x (a, m).
Proof.
  unfold congruent. cbn [fst snd].
  intros Hm1 Hm2 [j Hj] [k Hk]. unfold combine.
  destruct (gcd3_quotients m1 (a2 - a1) m2 Hm2) as (Hg & Ea & Eb & Ec).
  pose proof (gcd3_quotients_coprime m1 (a2 - a1) m2 Hm2) as Hcop.
  cbv zeta in Hcop.
  set (g := Z.gcd (Z.gcd m1 (a2 - a1)) m2) in *.
  unfold floordiv.
  destruct (Z.eqb_spec g 0) as [E | _]; [lia|]. cbn [bind].
  set (ka := m1 / g) in *. set (kb := (a2 - a1) / g) in *.
  set (kc := m2 / g) in *.
  clearbody ka kb kc g. subst m1 m2.
  assert (Hrel : j * ka - k * kc = kb) by nia.
  destruct (Z.eqb_spec ka 1) as [Hka | Hka]; cbn [negb].
  - eexists _, _. split; [reflexivity|].
    exists k. subst ka. nia.
  - pose proof (gcdex_spec ka kc) as Hbez.
    destruct (gcdex ka kc) as [[inv_a t] g2].
    destruct Hbez as [Hbez Hg2].
    assert (Hone : g2 = 1).
    { pose proof (Z.gcd_nonneg ka kc) as Hnn.
      pose proof (Z.gcd_divide_l ka kc) as Hda.
      pose proof (Z.gcd_divide_r ka kc) as Hdc.
      rewrite <- Hg2 in Hnn, Hda, Hdc.
      assert (Hdb : (g2 | kb)).
      { rewrite <- Hrel. apply Z.divide_sub_r; apply Z.divide_mul_r;
          assumption. }
      assert (Hd1 : (g2 | 1)).
      { rewrite <- Hcop. apply Z.gcd_greatest; [|assumption].
        apply Z.gcd_greatest; assumption. }
      apply Z.divide_1_r_nonneg; assumption. }
    destruct (Z.eqb_spec g2 1) as [_ | N]; [|contradiction]. cbn [negb].
    eexists _, _. split; [reflexivity|].
    exists (j * t + k * inv_a). rewrite Hone in Hbez.
    replace (x - (a1 + ka * g * (kb * inv_a)))
      with ((x - a1) - ka * g * (kb * inv_a)) by ring.
    rewrite Hj, <- Hrel.
    replace (j * (ka * g) - ka * g * ((j * ka - k * kc) * inv_a))
      with (ka * g * (j * (1 - inv_a * ka) + k * kc * inv_a)) by ring.
    replace (1 - inv_a * ka) with (t * kc) by lia. ring.
Qed.

Lemma solve_loop_complete (x : Z) (rm : list (Z * Z)) :
  forall rv nm,
    snd rv <> 0 -> nonzero_moduli rm ->
    congruent x rv -> Forall (congruent x) rm ->
    exists nm', solve_loop rv nm rm = Ok (Exhausted nm').
Proof.
  unfold nonzero_moduli.
  induction rm as [| [a2 m2] rest IH]; intros [a1 m1] nm Hm1 Hnz Hrv Hall.
  - eexists. reflexivity.
  - inversion Hnz as [| ? ? Hm2 Hrest]; subst.
    inversion Hall as [| ? ? Hx Hxrest]; subst.
    cbn [fst snd] in *. cbn [solve_loop].
    destruct (combine_complete a1 m1 a2 m2 x Hm1 Hm2 Hrv Hx)
      as (a & m & Hcomb & Hxam).
    destruct (combine_sound a1 m1 a2 m2 Hm1 Hm2)
      as [E | (a' & m' & E & Hm & _)]; rewrite E in Hcomb;
      [discriminate|].
    injection Hcomb as -> ->. rewrite E. cbn [bind].
    unfold pymod. destruct (Z.eqb_spec m 0) as [E0 | _]; [contradiction|].
    cbn [bind]. apply IH; cbn [snd]; assumption.
Qed.

Lemma check_loop_complete (x : Z) (rm : list (Z * Z)) :
  forall uniq,
    nonzero_moduli rm -> Forall (congruent x) rm ->
    Forall (fun mr => snd mr = x mod fst mr) uniq ->
    exists uniq', check_loop rm uniq = Ok (Some uniq').
Proof.
  unfold nonzero_moduli.
  induction rm as [| [r m] rest IH]; intros uniq Hnz Hall Huniq.
  - eexists. reflexivity.
  - inversion Hnz as [| ? ? Hm Hrest]; subst.
    inversion Hall as [| ? ? Hx Hxrest]; subst.
    cbn [snd] in Hm. cbn [check_loop]. unfold pymod.
    destruct (Z.eqb_spec m 0) as [E | _]; [contradiction|]. cbn [bind].
    assert (Hrx : r mod m = x mod m).
    { destruct Hx as [k Hk]. cbn [fst snd] in Hk.
      replace x with (r + k * m) by lia. symmetry. apply Z.mod_add.
      assumption. }
    destruct (uniq_get m uniq) as [r0 |] eqn:Hget.
    + apply uniq_get_In in Hget.
      pose proof (proj1 (Forall_forall _ _) Huniq _ Hget) as Hr0.
      cbn [fst snd] in Hr0.
      destruct (Z.eqb_spec (r mod m) r0) as [_ | N]; [|congruence].
      cbn [negb]. apply IH; assumption.
    + apply IH; try assumption.
      apply Forall_app. split; [assumption|].
      constructor; [|constructor]. cbn [fst snd]. assumption.
Qed.

(** ** solve_congruence: what it returns *)

Lemma congruent_iff_mod (x : Z) (am : Z * Z) :
  snd am <> 0 ->
  (congruent x am <-> x mod snd am = fst am mod snd am).
Proof.
  destruct am as [a m]. unfold congruent. cbn [fst snd]. intros Hm.
  split.
  - intros [k Hk]. replace x with (a + k * m) by lia.
    apply Z.mod_add. assumption.
  - intros H. exists (x / m - a / m).
    pose proof (Z.div_mod x m Hm). pose proof (Z.div_mod a m Hm). lia.
Qed.

Lemma congruent_all_iff_mod (x : Z) (pairs : list (Z * Z)) :
  nonzero_moduli pairs ->
  (Forall (congruent x) pairs <->
   Forall (fun am => x mod snd am = fst am mod snd am) pairs).
Proof.
  unfold nonzero_moduli. intros Hnz. rewrite !Forall_forall in *.
  split; intros H am Hin; apply (congruent_iff_mod x am (Hnz am Hin));
    apply H; assumption.
Qed.

(** The fold from [(0, 1)] over a non-empty list of pairs with nonzero
    moduli: a [break], or locals [n], [m] with [n] reduced modulo the
    nonzero [m] and satisfying every pair. *)
Lemma solve_fold_cases (rm : list (Z * Z)) :
  nonzero_moduli rm -> rm <> [] ->
  solve_loop (0, 1) None rm = Ok Broke \/
  exists n m,
    solve_loop (0, 1) None rm = Ok (Exhausted (Some (n, m))) /\
    m <> 0 /\ n = n mod m /\ Forall (congruent n) rm /\
    (positive_moduli rm -> 0 < m).
Proof.
  intros Hnz Hne.
  destruct (solve_loop_sound rm (0, 1) None ltac:(discriminate) Hnz)
    as [H | ([a m] & H & _ & Hm & _ & _ & Hall & Hpos)];
    [left; assumption|].
  right. cbn [fst snd] in *. exists (a mod m), m.
  destruct rm as [| x rm']; [contradiction|]. cbn [final_locals] in H.
  split; [assumption|]. split; [assumption|].
  split; [symmetry; apply Z.mod_mod; assumption|].
  split; [|intros Hp; apply Hpos; [lia | assumption]].
  eapply Forall_impl; [|exact Hall].
  intros [a' m'] [[k Hk] [j Hj]]. unfold congruent in *. cbn [fst snd] in *.
  rewrite Z.mod_eq by assumption.
  exists (j - a / m * k). rewrite Hk at 1. lia.
Qed.

Lemma solve_congruence_cases (pairs : list (Z * Z)) (check : bool) :
  nonzero_moduli pairs -> pairs <> [] ->
  solve_congruence pairs check = Ok PyNone \/
  exists rm n m,
    folded_pairs pairs check = Ok (Some rm) /\
    solve_loop (0, 1) None rm = Ok (Exhausted (Some (n, m))) /\
    solve_congruence pairs check = Ok (PyInt n) /\
    m <> 0 /\ n = n mod m /\ Forall (congruent n) pairs /\
    (positive_moduli pairs -> 0 < m).
Proof.
  intros Hnz Hne. unfold solve_congruence.
  assert (Hpre : folded_pairs pairs check = Ok None \/
            exists rm, folded_pairs pairs check = Ok (Some rm) /\
              nonzero_moduli rm /\ rm <> [] /\
              (positive_moduli pairs -> positive_moduli rm) /\
              (forall x, Forall (congruent x) rm ->
                         Forall (congruent x) pairs)).
  { destruct check; cbn [folded_pairs].
    - destruct (check_pairs_sound pairs Hnz)
        as [-> | (rm & -> & Hrnz & Hrpos & Hrne & Hiff)];
        [left; reflexivity|].
      right. exists rm. repeat split; try assumption.
      + apply Hrne. assumption.
      + apply Hiff.
    - right. exists pairs. repeat split; try assumption.
      + intros H. exact H.
      + intros x H. exact H. }
  destruct Hpre as [-> | (rm & -> & Hrnz & Hrne & Hrpos & Hback)];
    [left; reflexivity|].
  cbn [bind]. unfold solve_fold.
  destruct (solve_fold_cases rm Hrnz Hrne)
    as [-> | (n & m & Hloop & Hm & Hred & Hall & Hpos)];
    [left; reflexivity|].
  right. exists rm, n, m. rewrite Hloop. cbn [bind].
  repeat split; try assumption; try reflexivity.
  - apply Hback. assumption.
  - intros Hp. apply Hpos, Hrpos. assumption.
Qed.

(** A solution of the system keeps [solve_congruence] from returning
    [None]. *)
Lemma solve_congruence_complete (pairs : list (Z * Z)) (check : bool) (x : Z) :
  nonzero_moduli pairs -> Forall (congruent x) pairs ->
  solve_congruence pairs check <> Ok PyNone.
Proof.
  intros Hnz Hx. unfold solve_congruence.
  assert (Hfold : forall rm,
            nonzero_moduli rm -> Forall (congruent x) rm ->
            solve_fold rm <> Ok PyNone).
  { intros rm Hrnz Hrx. unfold solve_fold.
    destruct (solve_loop_complete x rm (0, 1) None ltac:(discriminate) Hrnz)
      as [nm' ->]; [exists x; cbn; ring | assumption |].
    cbn [bind]. destruct nm' as [[n m] |]; discriminate. }
  destruct check; cbn [folded_pairs].
  - destruct (check_loop_complete x pairs [] Hnz Hx ltac:(constructor))
      as [uniq Huniq].
    destruct (check_pairs_sound pairs Hnz)
      as [E | (rm & Hcp & Hrnz & _ & _ & Hiff)].
    + unfold check_pairs in E. rewrite Huniq in E. discriminate.
    + rewrite Hcp. cbn [bind]. apply Hfold; [assumption|].
      apply Hiff. assumption.
  - cbn [bind]. apply Hfold; assumption.
Qed.

Lemma solve_congruence_empty (check : bool) :
  solve_congruence [] check = Raise UnboundLocalError.
Proof. destruct check; reflexivity. Qed.

(** On a non-empty satisfiable system with nonzero moduli the result is
    an integer that satisfies every congruence. *)
Lemma solve_congruence_satisfiable (pairs : list (Z * Z)) (check : bool) :
  pairs <> [] -> nonzero_moduli pairs -> satisfiable pairs ->
  exists n,
    solve_congruence pairs check = Ok (PyInt n) /\
    Forall (fun am => n mod snd am = fst am mod snd am) pairs.
Proof.
  intros Hne Hnz [x Hx].
  apply (congruent_all_iff_mod x pairs Hnz) in Hx.
  destruct (solve_congruence_cases pairs check Hnz Hne)
    as [E | (rm & n & m & _ & _ & E & _ & _ & Hall & _)].
  - exfalso. exact (solve_congruence_complete pairs check x Hnz Hx E).
  - exists n. split; [assumption|].
    apply (congruent_all_iff_mod n pairs Hnz). assumption.
Qed.

(** C1: on the docstring inputs ((2,3),(3,5),(2,7)) and ((2,3),(5,6))
    [solve_congruence] returns the bare integers 23 and 5, not the pairs
    (23, 105) and (5, 6).  For every non-empty satisfiable system with
    nonzero moduli it returns an integer, never a pair; that integer
    satisfies every congruence of the input. *)
Theorem solve_congruence_returns_value_only :
  solve_congruence [(2, 3); (3, 5); (2, 7)] true = Ok (PyInt 23) /\
  solve_congruence [(2, 3); (3, 5); (2, 7)] true <> Ok (PyTuple 23 105) /\
  solve_congruence [(2, 3); (5, 6)] true = Ok (PyInt 5) /\
  solve_congruence [(2, 3); (5, 6)] true <> Ok (PyTuple 5 6) /\
  (forall pairs,
      pairs <> [] -> nonzero_moduli pairs -> satisfiable pairs ->
      exists n,
        solve_congruence pairs true = Ok (PyInt n) /\
        Forall (fun am => n mod snd am = fst am mod snd am) pairs).
Proof.
  split; [vm_compute; reflexivity|].
  split; [vm_compute; discriminate|].
  split; [vm_compute; reflexivity|].
  split; [vm_compute; discriminate|].
  intros pairs. apply solve_congruence_satisfiable.
Qed.

Lemma solve_congruence_returns_value_only_witness :
  exists n,
    solve_congruence [(1, 4); (3, 6)] true = Ok (PyInt n) /\
    Forall (fun am => n mod snd am = fst am mod snd am) [(1, 4); (3, 6)].
Proof.
  destruct solve_congruence_returns_value_only as (_ & _ & _ & _ & H).
  apply (H [(1, 4); (3, 6)]).
  - discriminate.
  - repeat constructor; simpl; lia.
  - exists 9. repeat constructor.
Defined.

(** C5, as the code has it: for every sequence of pairs with nonzero
    moduli whose system is unsatisfiable, [solve_congruence] returns
    [None]; for a non-empty sequence of pairs with nonzero moduli it does
    not raise; and [solve_congruence((2,3),(4,6))] is [None]. *)
Theorem solve_congruence_unsatisfiable (pairs : list (Z * Z)) :
  nonzero_moduli pairs ->
  (~ satisfiable pairs -> solve_congruence pairs true = Ok PyNone) /\
  (pairs <> [] -> exists v, solve_congruence pairs true = Ok v) /\
  solve_congruence [(2, 3); (4, 6)] true = Ok PyNone.
Proof.
  intros Hnz.
  assert (Hcases : pairs <> [] ->
            solve_congruence pairs true = Ok PyNone \/
            exists n, solve_congruence pairs true = Ok (PyInt n) /\
                      satisfiable pairs).
  { intros Hne.
    destruct (solve_congruence_cases pairs true Hnz Hne)
      as [E | (rm & n & m & _ & _ & E & _ & _ & Hall & _)];
      [left; assumption|].
    right. exists n. split; [assumption|]. exists n.
    apply (congruent_all_iff_mod n pairs Hnz). assumption. }
  split; [|split].
  - intros Hunsat. destruct pairs as [| am pairs'].
    + exfalso. apply Hunsat. exists 0. constructor.
    + destruct (Hcases ltac:(discriminate)) as [E | (n & _ & Hsat)];
        [assumption | contradiction].
  - intros Hne. destruct (Hcases Hne) as [E | (n & E & _)];
      eexists; eassumption.
  - vm_compute. reflexivity.
Qed.

Lemma solve_congruence_unsatisfiable_witness :
  solve_congruence [(1, 3); (14, 42)] true = Ok PyNone /\
  exists v, solve_congruence [(1, 3); (14, 42)] true = Ok v.
Proof.
  destruct (solve_congruence_unsatisfiable [(1, 3); (14, 42)])
    as (Hunsat & Hnoraise & _).
  - repeat constructor; simpl; lia.
  - split.
    + apply Hunsat. intros [x Hx].
      inversion Hx as [| ? ? H3 Hx']; subst.
      inversion Hx' as [| ? ? H42 _]; subst.
      cbn [fst snd] in H3, H42.
      Z.to_euclidean_division_equations. lia.
    + apply Hnoraise. discriminate.
Defined.

(** Counterexample to C5 as stated: the empty sequence has no zero
    modulus, and [solve_congruence] raises on it. *)
Lemma solve_congruence_raises_on_empty :
  nonzero_moduli [] /\
  ~ (exists v, solve_congruence [] true = Ok v).
Proof.
  split; [constructor|].
  intros [v Hv]. vm_compute in Hv. discriminate.
Qed.

(** C10: [solve_congruence] on an empty sequence of pairs returns neither
    the identity constraint [(0, 1)] nor [None]: the [else] clause reads
    the local [n], which was never assigned, and the call raises
    [UnboundLocalError], a [NameError]. *)
Theorem solve_congruence_empty_raises (check : bool) :
  solve_congruence [] check = Raise UnboundLocalError /\
  is_NameError UnboundLocalError = true /\
  solve_congruence [] check <> Ok (PyTuple 0 1) /\
  solve_congruence [] check <> Ok PyNone.
Proof.
  rewrite solve_congruence_empty.
  repeat split; try reflexivity; discriminate.
Qed.




(** ** crt *)

Lemma _crt_loop_moduli (p : Z) (UM : list (Z * Z)) :
  forall v r, _crt_loop p v UM = Ok r -> Forall (fun um => snd um <> 0) UM.
Proof.
  induction UM as [| [u m] UM IH]; intros v r H; [constructor|].
  cbn [_crt_loop] in H. unfold floordiv in H.
  destruct (Z.eqb_spec m 0) as [E | Hm]; [discriminate|].
  cbn [bind] in H. destruct (gcdex (p / m) m) as [[s t] g].
  unfold pymod in H. destruct (Z.eqb_spec m 0) as [E | _]; [contradiction|].
  cbn [bind] in H. constructor; [assumption|].
  eapply IH. eassumption.
Qed.

Lemma _crt_moduli (U M : list Z) (r : Z) :
  _crt U M = Ok r -> Forall (fun um => snd um <> 0) (zip U M).
Proof.
  unfold _crt. intros H.
  destruct (_crt_loop (prod M) 0 (zip U M)) as [v |] eqn:E;
    [|discriminate].
  eapply _crt_loop_moduli. eassumption.
Qed.

(** With nonzero moduli the residue test does not raise: it is a plain
    conjunction. *)
Lemma all_residues_nonzero (result : Z) (vm : list (Z * Z)) :
  Forall (fun um => snd um <> 0) vm ->
  all_residues result vm
  = Ok (forallb (fun um => fst um mod snd um =? result mod snd um) vm).
Proof.
  induction 1 as [| [v m] vm Hm _ IH]; [reflexivity|].
  cbn [all_residues forallb fst snd] in *. unfold pymod.
  destruct (Z.eqb_spec m 0) as [E | _]; [contradiction|]. cbn [bind].
  destruct (v mod m =? result mod m); [assumption | reflexivity].
Qed.

Lemma nth_error_zip {A B : Type} (l : list A) (k : list B) :
  forall i a b,
    nth_error (zip l k) i = Some (a, b) ->
    nth_error l i = Some a /\ nth_error k i = Some b.
Proof.
  unfold zip. revert k.
  induction l as [| x l IH]; intros [| y k] [| i] a b H; simpl in *;
    try discriminate.
  - injection H as -> ->. split; reflexivity.
  - apply IH. assumption.
Qed.

(** On pairwise coprime nonzero moduli the residue test passes and [crt]
    hands back the value of [_crt] as it is. *)
Lemma crt_coprime (M V : list Z) (check : bool) :
  pairwise_coprime M = true ->
  Forall (fun m => m <> 0) M ->
  exists v, _crt V M = Ok v /\ crt M V check = Ok (PyInt v).
Proof.
  intros Hcop Hnz.
  destruct (_crt_congruences V M Hcop Hnz) as (v & Hv & _ & _ & Hcong).
  exists v. split; [assumption|].
  unfold crt. rewrite Hv. cbn [bind].
  destruct check; [|reflexivity].
  pose proof (_crt_moduli V M v Hv) as Hmod.
  rewrite all_residues_nonzero by assumption. cbn [bind].
  replace (forallb _ (zip V M)) with true; [reflexivity|].
  symmetry. apply forallb_forall. intros [u m] Hin.
  cbn [fst snd]. apply Z.eqb_eq.
  rewrite Forall_forall in Hmod. pose proof (Hmod _ Hin) as Hm.
  cbn [snd] in Hm.
  apply In_nth_error in Hin. destruct Hin as [i Hi].
  apply nth_error_zip in Hi. destruct Hi as [Hu HmI].
  destruct (Hcong i u m Hu HmI) as [k Hk].
  replace v with (u + k * m) by lia.
  symmetry. apply Z.mod_add. assumption.
Qed.

(** C2: on the docstring input [crt([99, 97, 95], [49, 76, 65])] returns
    the bare integer 639985, the value of [_crt([49, 76, 65], [99, 97,
    95])], and not the pair (639985, 912285) with 912285 = 99*97*95.  On
    all pairwise coprime nonzero moduli [crt] returns the value of [_crt]
    alone, without the product of the moduli. *)
Theorem crt_returns_value_only :
  crt [99; 97; 95] [49; 76; 65] true = Ok (PyInt 639985) /\
  crt [99; 97; 95] [49; 76; 65] true <> Ok (PyTuple 639985 912285) /\
  _crt [49; 76; 65] [99; 97; 95] = Ok 639985 /\
  prod [99; 97; 95] = 912285 /\
  (forall M V check,
      pairwise_coprime M = true -> Forall (fun m => m <> 0) M ->
      exists v, _crt V M = Ok v /\ crt M V check = Ok (PyInt v)).
Proof.
  split; [vm_compute; reflexivity|].
  split; [vm_compute; discriminate|].
  split; [vm_compute; reflexivity|].
  split; [vm_compute; reflexivity|].
  intros M V check. apply crt_coprime.
Qed.

Lemma crt_returns_value_only_witness :
  exists v, _crt [1; 2; 3] [3; 5; 7] = Ok v /\
            crt [3; 5; 7] [1; 2; 3] true = Ok (PyInt v).
Proof.
  destruct crt_returns_value_only as (_ & _ & _ & _ & H).
  apply (H [3; 5; 7] [1; 2; 3] true).
  - vm_compute. reflexivity.
  - repeat constructor; lia.
Defined.

(** C6: in [crt(m, v, check=True)], when the value [result] of the fast
    path fails the residue test for at least one pair, [crt] returns
    exactly what [solve_congruence] returns on the zipped (residue,
    modulus) pairs with [check=False]; when it passes the test for every
    pair, [crt] returns the fast-path result. *)
Theorem crt_check_fallback (m v : list Z) (result : Z) :
  _crt v m = Ok result ->
  (Exists (fun vm => fst vm mod snd vm <> result mod snd vm) (zip v m) ->
   crt m v true = solve_congruence (zip v m) false) /\
  (Forall (fun vm => fst vm mod snd vm = result mod snd vm) (zip v m) ->
   crt m v true = Ok (PyInt result)).
Proof.
  intros Hres. unfold crt. rewrite Hres. cbn [bind].
  rewrite all_residues_nonzero by (eapply _crt_moduli; eassumption).
  cbn [bind].
  destruct (forallb _ (zip v m)) eqn:Hall; cbn [negb].
  - split; [|reflexivity].
    intros Hex. exfalso. apply Exists_exists in Hex.
    destruct Hex as (vm & Hin & Hneq).
    rewrite forallb_forall in Hall. apply Hneq, Z.eqb_eq, Hall, Hin.
  - split; [reflexivity|].
    intros Hfa. exfalso.
    assert (Htrue : forallb
              (fun um => fst um mod snd um =? result mod snd um) (zip v m)
              = true).
    { apply forallb_forall. intros vm Hin. apply Z.eqb_eq.
      rewrite Forall_forall in Hfa. apply Hfa, Hin. }
    rewrite Htrue in Hall. discriminate.
Qed.

Lemma crt_check_fallback_witness :
  crt [12; 6; 17] [3; 4; 2] true
  = solve_congruence (zip [3; 4; 2] [12; 6; 17]) false /\
  crt [99; 97; 95] [49; 76; 65] true = Ok (PyInt 639985).
Proof.
  split.
  - apply (crt_check_fallback [12; 6; 17] [3; 4; 2] 954).
    + vm_compute. reflexivity.
    + apply Exists_cons_hd. vm_compute. discriminate.
  - apply (crt_check_fallback [99; 97; 95] [49; 76; 65] 639985).
    + vm_compute. reflexivity.
    + repeat constructor.
Defined.

(** * Further properties of the module *)

(** ** gcdex: signs and inverses *)

(** X1: negating an operand of [gcdex] negates the coefficient of that
    operand and leaves the other coefficient and the gcd as they are.
    For the first operand this holds for all integers; for the second it
    needs one operand to be nonzero, since [gcdex(0, 0)] is [(0, 1, 0)]. *)
Theorem gcdex_negate (a b : Z) :
  (gcdex (- a) b = let '(x, y, g) := gcdex a b in (- x, y, g)) /\
  (a <> 0 \/ b <> 0 ->
   gcdex a (- b) = let '(x, y, g) := gcdex a b in (x, - y, g)).
Proof.
  assert (Hsgn : forall z, z <> 0 -> - z / Z.abs (- z) = - (z / Z.abs z)).
  { intros z Hz. rewrite !sign_floordiv by lia. rewrite Z.sgn_opp.
    reflexivity. }
  split.
  - unfold gcdex.
    destruct (Z.eqb_spec a 0) as [-> | Ha].
    + cbn [Z.opp Z.eqb andb].
      destruct (b =? 0); reflexivity.
    + destruct (Z.eqb_spec (- a) 0) as [E | _]; [lia|]. cbn [andb].
      destruct (Z.eqb_spec b 0) as [-> | Hb].
      * rewrite Hsgn by assumption. rewrite Z.abs_opp. reflexivity.
      * destruct (Z.ltb_spec a 0); destruct (Z.ltb_spec (- a) 0);
          try lia; destruct (b <? 0); rewrite ?Z.opp_involutive;
          f_equal; f_equal; ring.
  - intros Hnz. unfold gcdex.
    destruct (Z.eqb_spec b 0) as [-> | Hb].
    + cbn [Z.opp Z.eqb]. destruct (Z.eqb_spec a 0) as [E | Ha]; [lia|].
      cbn [andb]. reflexivity.
    + destruct (Z.eqb_spec (- b) 0) as [E | _]; [lia|].
      rewrite !andb_false_r.
      destruct (Z.eqb_spec a 0) as [-> | Ha].
      * rewrite Hsgn by assumption. rewrite Z.abs_opp. reflexivity.
      * destruct (a <? 0); destruct (Z.ltb_spec b 0);
          destruct (Z.ltb_spec (- b) 0); try lia;
          rewrite ?Z.opp_involutive; f_equal; f_equal; ring.
Qed.

Lemma gcdex_negate_witness :
  gcdex 100 (- 2004) = let '(x, y, g) := gcdex 100 2004 in (x, - y, g).
Proof.
  destruct (gcdex_negate 100 2004) as [_ H]. apply H. left. lia.
Defined.

(** X2: for a nonzero modulus [m] coprime to [a], the first coefficient
    of [gcdex(a, m)] is an inverse of [a] modulo [m]. *)
Theorem gcdex_inverse (a m : Z) :
  m <> 0 -> Z.gcd a m = 1 ->
  let '(s, _, _) := gcdex a m in (s * a) mod m = 1 mod m.
Proof.
  intros Hm Hg. pose proof (gcdex_spec a m) as H.
  destruct (gcdex a m) as [[s t] g]. destruct H as [Hbez Hgcd].
  rewrite Hgcd, Hg in Hbez.
  replace (s * a) with (1 + (- t) * m) by lia.
  apply Z.mod_add. assumption.
Qed.

Lemma gcdex_inverse_witness :
  let '(s, _, _) := gcdex 9215 99 in (s * 9215) mod 99 = 1 mod 99.
Proof.
  apply (gcdex_inverse 9215 99).
  - lia.
  - vm_compute. reflexivity.
Defined.

(** ** prod *)

Lemma prod_zero_iff (M : list Z) : prod M = 0 <-> In 0 M.
Proof.
  split.
  - induction M as [| m M IH].
    + discriminate.
    + rewrite prod_cons. intros H. apply Z.mul_eq_0 in H.
      destruct H as [-> | H]; [left; reflexivity | right; auto].
  - intros H. apply in_divide_prod in H. apply Z.divide_0_l. assumption.
Qed.

(** X3: [prod] of an empty sequence is 1, [prod] turns concatenation
    into multiplication, and it is zero exactly when a factor is zero. *)
Theorem prod_properties (M1 M2 : list Z) :
  prod [] = 1 /\
  prod (M1 ++ M2) = prod M1 * prod M2 /\
  (prod M1 = 0 <-> In 0 M1).
Proof.
  split; [reflexivity|]. split; [apply prod_app | apply prod_zero_iff].
Qed.

(** ** _crt: zero moduli, mismatched lengths, uniqueness *)

Lemma _crt_loop_raises (p : Z) (UM : list (Z * Z)) :
  forall v e, _crt_loop p v UM = Raise e -> e = ZeroDivisionError.
Proof.
  induction UM as [| [u m] UM IH]; intros v e H; [discriminate|].
  cbn [_crt_loop] in H. unfold floordiv, pymod in H.
  destruct (m =? 0); cbn [bind] in H; [congruence|].
  destruct (gcdex (p / m) m) as [[s t] g]. cbn [bind] in H.
  eapply IH. eassumption.
Qed.

(** Whether [_crt] raises is decided by the presence of a zero in [M]. *)
Lemma _crt_zero_modulus_aux (U M : list Z) :
  (In 0 M -> _crt U M = Raise ZeroDivisionError) /\
  (~ In 0 M -> exists v, _crt U M = Ok v).
Proof.
  split.
  - intros Hin. apply prod_zero_iff in Hin. unfold _crt. rewrite Hin.
    destruct (_crt_loop 0 0 (zip U M)) as [v | e] eqn:E; cbn [bind].
    + reflexivity.
    + f_equal. eapply _crt_loop_raises. eassumption.
  - intros Hnin.
    assert (Hnz : Forall (fun m => m <> 0) M).
    { apply Forall_forall. intros m Hm ->. contradiction. }
    unfold _crt. rewrite _crt_loop_sum by (apply zip_moduli_nonzero, Hnz).
    cbn [bind]. unfold pymod.
    destruct (Z.eqb_spec (prod M) 0) as [E | _].
    + apply prod_zero_iff in E. contradiction.
    + eexists. reflexivity.
Qed.

(** X4: [_crt] raises [ZeroDivisionError] exactly when some modulus of
    [M] is zero, whatever the residues and whether or not that modulus
    is paired with a residue; otherwise it returns a value. *)
Theorem _crt_zero_modulus (U M : list Z) :
  (In 0 M -> _crt U M = Raise ZeroDivisionError) /\
  (~ In 0 M -> exists v, _crt U M = Ok v).
Proof. apply _crt_zero_modulus_aux. Qed.

Lemma _crt_zero_modulus_witness :
  _crt [1] [3; 0] = Raise ZeroDivisionError /\
  exists v, _crt [1; 2] [3; 5] = Ok v.
Proof.
  split.
  - apply (_crt_zero_modulus [1] [3; 0]). simpl. auto.
  - apply (_crt_zero_modulus [1; 2] [3; 5]). simpl. lia.
Defined.

Lemma zip_surplus {A B : Type} (l extra : list A) (k : list B) :
  length l = length k -> zip (l ++ extra) k = zip l k.
Proof.
  intros Hlen. rewrite <- (app_nil_r k) at 1.
  rewrite zip_app by assumption.
  unfold zip at 2. rewrite combine_nil. apply app_nil_r.
Qed.

(** X5: the lengths of the two sequences are not compared: residues
    beyond the number of moduli are ignored by [_crt] and by [crt]. *)
Theorem crt_surplus_residues (M V extra : list Z) (check : bool) :
  length V = length M ->
  _crt (V ++ extra) M = _crt V M /\
  crt M (V ++ extra) check = crt M V check.
Proof.
  intros Hlen.
  assert (H : _crt (V ++ extra) M = _crt V M).
  { unfold _crt. rewrite zip_surplus by assumption. reflexivity. }
  split; [assumption|].
  unfold crt. rewrite H, zip_surplus by assumption. reflexivity.
Qed.

Lemma crt_surplus_residues_witness :
  _crt ([49; 76; 65] ++ [7; 8]) [99; 97; 95] = _crt [49; 76; 65] [99; 97; 95]
  /\ crt [99; 97; 95] ([49; 76; 65] ++ [7; 8]) true
     = crt [99; 97; 95] [49; 76; 65] true.
Proof.
  apply (crt_surplus_residues [99; 97; 95] [49; 76; 65] [7; 8] true).
  reflexivity.
Defined.

(** X6: on pairwise coprime nonzero moduli of either sign and with
    arbitrary residues, [_crt] returns a value [v] with
    [v % M[i] == U[i] % M[i]] at every position that has a residue and a
    modulus; [v] lies in [[0, P)] for a positive product [P] of the
    moduli and in [(P, 0]] for a negative one. *)
Theorem _crt_any_residues (U M : list Z) :
  pairwise_coprime M = true ->
  Forall (fun m => m <> 0) M ->
  exists v, _crt U M = Ok v /\
    (forall i u m,
        nth_error U i = Some u -> nth_error M i = Some m ->
        v mod m = u mod m) /\
    (0 < prod M -> 0 <= v < prod M) /\
    (prod M < 0 -> prod M < v <= 0).
Proof.
  intros Hcop Hnz.
  destruct (_crt_congruences U M Hcop Hnz) as (v & Hv & Hp & Hred & Hcong).
  exists v. split; [assumption|]. split; [|split].
  - intros i u m Hu Hm. destruct (Hcong i u m Hu Hm) as [k Hk].
    replace v with (u + k * m) by lia. apply Z.mod_add.
    rewrite Forall_forall in Hnz. apply Hnz.
    eapply nth_error_In. eassumption.
  - intros H. rewrite Hred. apply Z.mod_pos_bound. assumption.
  - intros H. rewrite Hred. apply Z.mod_neg_bound. assumption.
Qed.

Lemma _crt_any_residues_witness :
  exists v, _crt [149; -21] [-99; 97] = Ok v /\
    (forall i u m,
        nth_error [149; -21] i = Some u -> nth_error [-99; 97] i = Some m ->
        v mod m = u mod m) /\
    (0 < prod [-99; 97] -> 0 <= v < prod [-99; 97]) /\
    (prod [-99; 97] < 0 -> prod [-99; 97] < v <= 0).
Proof.
  apply (_crt_any_residues [149; -21] [-99; 97]).
  - vm_compute. reflexivity.
  - repeat constructor; lia.
Defined.

Lemma coprime_divisors_prod (d : Z) (M : list Z) :
  pairwise_coprime M = true ->
  Forall (fun m => (m | d)) M -> (prod M | d).
Proof.
  induction M as [| m M IH]; intros Hcop Hall.
  - change (prod []) with 1. apply Z.divide_1_l.
  - inversion Hall as [| ? ? Hm Hrest]; subst.
    pose proof (pairwise_coprime_split [] M m Hcop) as Hothers.
    cbn [app] in Hothers.
    cbn [pairwise_coprime] in Hcop. apply andb_prop in Hcop.
    destruct Hcop as [_ Hcop].
    specialize (IH Hcop Hrest).
    pose proof (prod_coprime M m Hothers) as Hg.
    rewrite prod_cons. destruct Hm as [k ->].
    rewrite (Z.mul_comm k m). apply Z.mul_divide_mono_l.
    apply Z.gauss with (m := m); [|assumption].
    rewrite Z.mul_comm. assumption.
Qed.

(** A solution of the whole system differs from a value congruent to
    every residue by a multiple of the product. *)
Lemma solutions_differ_by_prod (U M : list Z) (x v : Z) :
  pairwise_coprime M = true ->
  Forall (fun m => m <> 0) M ->
  (length M <= length U)%nat ->
  (forall i u m,
      nth_error U i = Some u -> nth_error M i = Some m -> (m | v - u)) ->
  (forall i u m,
      nth_error U i = Some u -> nth_error M i = Some m ->
      x mod m = u mod m) ->
  (prod M | x - v).
Proof.
  intros Hcop Hnz Hlen Hcong Hx.
  apply coprime_divisors_prod; [assumption|].
  apply Forall_forall. intros m Hin.
  apply In_nth_error in Hin. destruct Hin as [i Hi].
  assert (Hlt : (i < length U)%nat).
  { assert (i < length M)%nat
      by (apply nth_error_Some; rewrite Hi; discriminate).
    lia. }
  destruct (nth_error U i) as [u |] eqn:Hu;
    [|apply nth_error_None in Hu; lia].
  assert (Hm0 : m <> 0).
  { rewrite Forall_forall in Hnz. apply Hnz.
    eapply nth_error_In. eassumption. }
  pose proof (Hx i u m Hu Hi) as Hxu.
  apply (congruent_iff_mod x (u, m) Hm0) in Hxu.
  destruct Hxu as [k Hk]. destruct (Hcong i u m Hu Hi) as [j Hj].
  cbn [fst snd] in Hk. exists (k - j). lia.
Qed.

(** X7: on pairwise coprime nonzero moduli, each with a residue, the
    value of [_crt] is the only solution up to multiples of the product:
    every integer [x] with [x % M[i] == U[i] % M[i]] for all [i] is
    congruent to the value of [_crt] modulo [prod(M)]. *)
Theorem _crt_unique (U M : list Z) (x : Z) :
  pairwise_coprime M = true ->
  Forall (fun m => m <> 0) M ->
  (length M <= length U)%nat ->
  (forall i u m,
      nth_error U i = Some u -> nth_error M i = Some m ->
      x mod m = u mod m) ->
  exists v, _crt U M = Ok v /\ x mod prod M = v mod prod M.
Proof.
  intros Hcop Hnz Hlen Hx.
  destruct (_crt_congruences U M Hcop Hnz) as (v & Hv & Hp & Hred & Hcong).
  exists v. split; [assumption|].
  destruct (solutions_differ_by_prod U M x v Hcop Hnz Hlen Hcong Hx)
    as [k Hk].
  replace x with (v + k * prod M) by lia.
  apply Z.mod_add. assumption.
Qed.

Lemma _crt_unique_witness :
  exists v, _crt [49; 76; 65] [99; 97; 95] = Ok v /\
            (639985 + 912285) mod prod [99; 97; 95]
            = v mod prod [99; 97; 95].
Proof.
  apply (_crt_unique [49; 76; 65] [99; 97; 95] (639985 + 912285)).
  - vm_compute. reflexivity.
  - repeat constructor; lia.
  - simpl. lia.
  - intros [| [| [| i]]] u m Hu Hm; simpl in Hu, Hm;
      try (destruct i; discriminate);
      injection Hu as <-; injection Hm as <-; vm_compute; reflexivity.
Defined.

(** ** combine *)

Lemma combine_identity (a m : Z) : combine (0, 1) (a, m) = Ok (Some (a, m)).
Proof.
  unfold combine. rewrite Z.gcd_1_l, Z.gcd_1_l. unfold floordiv.
  cbn [Z.eqb bind]. rewrite !Z.div_1_r.
  change (negb (1 =? 1)) with false. cbv iota.
  do 3 f_equal; ring.
Qed.

(** When [combine] returns a pair, its modulus is [m1 * (m2 // gcd(m1,
    m2))]: up to sign the least common multiple of the two moduli. *)
Lemma combine_lcm (a1 m1 a2 m2 a m : Z) :
  m2 <> 0 ->
  combine (a1, m1) (a2, m2) = Ok (Some (a, m)) ->
  Z.abs m = Z.lcm m1 m2.
Proof.
  intros Hm2. unfold combine.
  destruct (gcd3_quotients m1 (a2 - a1) m2 Hm2) as (Hg & Ea & Eb & Ec).
  set (g := Z.gcd (Z.gcd m1 (a2 - a1)) m2) in *.
  unfold floordiv.
  destruct (Z.eqb_spec g 0) as [E | _]; [lia|]. cbn [bind].
  set (ka := m1 / g) in *. set (kb := (a2 - a1) / g) in *.
  set (kc := m2 / g) in *.
  clearbody ka kb kc g. subst m1 m2.
  assert (Hlcm : Z.gcd ka kc = 1 ->
                 Z.abs (ka * g * kc) = Z.lcm (ka * g) (kc * g)).
  { intros Hcop. unfold Z.lcm.
    rewrite Z.gcd_mul_mono_r_nonneg, Hcop, Z.mul_1_l by lia.
    rewrite Z.div_mul by lia. reflexivity. }
  destruct (Z.eqb_spec ka 1) as [Hka | Hka]; cbn [negb].
  - intros [= _ <-]. apply Hlcm. rewrite Hka. apply Z.gcd_1_l.
  - pose proof (gcdex_spec ka kc) as Hbez.
    destruct (gcdex ka kc) as [[inv_a t] g2].
    destruct Hbez as [_ Hg2].
    destruct (Z.eqb_spec g2 1) as [Hone | _]; cbn [negb]; [|discriminate].
    intros [= _ <-]. apply Hlcm. congruence.
Qed.

(** X8: for nonzero moduli [combine] does not raise.  It returns [None]
    exactly when the two congruences have no common solution; a pair
    [(a, m)] it returns has, up to sign, the least common multiple of
    the two moduli as [m], and the integers congruent to [a] modulo [m]
    are exactly the common solutions. *)
Theorem combine_correct (a1 m1 a2 m2 : Z) :
  m1 <> 0 -> m2 <> 0 ->
  (combine (a1, m1) (a2, m2) = Ok None /\
   forall x, ~ (congruent x (a1, m1) /\ congruent x (a2, m2))) \/
  (exists a m,
      combine (a1, m1) (a2, m2) = Ok (Some (a, m)) /\
      Z.abs m = Z.lcm m1 m2 /\
      forall x, congruent x (a, m) <->
                congruent x (a1, m1) /\ congruent x (a2, m2)).
Proof.
  intros Hm1 Hm2.
  destruct (combine_sound a1 m1 a2 m2 Hm1 Hm2)
    as [E | (a & m & E & Hm & H1m & H2m & H1a & H2a & _)].
  - left. split; [assumption|]. intros x [Hx1 Hx2].
    destruct (combine_complete a1 m1 a2 m2 x Hm1 Hm2 Hx1 Hx2)
      as (a & m & E' & _).
    congruence.
  - right. exists a, m. split; [assumption|].
    split; [eapply combine_lcm; eassumption|].
    intros x. unfold congruent. cbn [fst snd]. split.
    + intros Hx.
      assert (Hvia : forall d z, (d | m) -> (d | a - z) -> (d | x - z)).
      { intros d z Hd Hz.
        replace (x - z) with ((x - a) + (a - z)) by ring.
        apply Z.divide_add_r; [|assumption].
        exact (Z.divide_trans _ _ _ Hd Hx). }
      split; apply Hvia; assumption.
    + intros [Hx1 Hx2].
      destruct (combine_complete a1 m1 a2 m2 x Hm1 Hm2 Hx1 Hx2)
        as (a' & m' & E' & Hx').
      rewrite E in E'. injection E' as <- <-. exact Hx'.
Qed.

Lemma combine_correct_witness :
  (combine (2, 3) (4, 6) = Ok None /\
   forall x, ~ (congruent x (2, 3) /\ congruent x (4, 6))) \/
  (exists a m,
      combine (2, 3) (4, 6) = Ok (Some (a, m)) /\
      Z.abs m = Z.lcm 3 6 /\
      forall x, congruent x (a, m) <->
                congruent x (2, 3) /\ congruent x (4, 6)).
Proof. apply (combine_correct 2 3 4 6); lia. Defined.

(** ** solve_congruence: the combined modulus and the least solution *)

(** One iteration of the loop that ends exhausted. *)
Lemma solve_loop_step (rv rmi : Z * Z) (nm : option (Z * Z))
    (rest : list (Z * Z)) (n m : Z) :
  snd rv <> 0 -> snd rmi <> 0 ->
  solve_loop rv nm (rmi :: rest) = Ok (Exhausted (Some (n, m))) ->
  exists a m',
    combine rv rmi = Ok (Some (a, m')) /\ m' <> 0 /\
    solve_loop (a, m') (Some (a mod m', m')) rest
    = Ok (Exhausted (Some (n, m))).
Proof.
  destruct rv as [a1 m1], rmi as [a2 m2]. cbn [fst snd].
  intros Hm1 Hm2. cbn [solve_loop].
  destruct (combine_sound a1 m1 a2 m2 Hm1 Hm2)
    as [-> | (a & m' & -> & Hm' & _)]; cbn [bind]; [discriminate|].
  unfold pymod. destruct (Z.eqb_spec m' 0) as [E | _]; [contradiction|].
  cbn [bind]. intros H. exists a, m'. repeat split; assumption.
Qed.

(** A solution of the pairs that were folded is congruent to the locals
    [n], [m] the loop ends with. *)
Lemma solve_loop_solution (x : Z) (rm : list (Z * Z)) :
  forall rv nm n m,
    snd rv <> 0 -> nonzero_moduli rm -> rm <> [] ->
    congruent x rv -> Forall (congruent x) rm ->
    solve_loop rv nm rm = Ok (Exhausted (Some (n, m))) ->
    (m | x - n).
Proof.
  unfold nonzero_moduli.
  induction rm as [| [a2 m2] rest IH]; intros [a1 m1] nm n m Hm1 Hnz Hne
    Hrv Hall Hloop; [contradiction|].
  inversion Hnz as [| ? ? Hm2 Hrest]; subst.
  inversion Hall as [| ? ? Hx Hxrest]; subst.
  destruct (solve_loop_step _ _ _ _ _ _ Hm1 Hm2 Hloop)
    as (a & m' & Hcomb & Hm' & Hnext).
  cbn [fst snd] in Hm1, Hm2.
  destruct (combine_complete a1 m1 a2 m2 x Hm1 Hm2 Hrv Hx)
    as (a' & m'' & Hcomb' & Hxa).
  rewrite Hcomb in Hcomb'. injection Hcomb' as <- <-.
  destruct rest as [| rmi rest'].
  - cbn [solve_loop] in Hnext. injection Hnext as <- <-.
    unfold congruent in Hxa. cbn [fst snd] in Hxa.
    rewrite Z.mod_eq by assumption. destruct Hxa as [k Hk].
    exists (k + a / m'). lia.
  - eapply (IH (a, m')); try eassumption; [discriminate].
Qed.

(** The modulus the loop ends with divides every common multiple of the
    moduli that were folded. *)
Lemma solve_loop_common_multiple (d : Z) (rm : list (Z * Z)) :
  forall rv nm n m,
    snd rv <> 0 -> nonzero_moduli rm -> rm <> [] ->
    (snd rv | d) -> Forall (fun am => (snd am | d)) rm ->
    solve_loop rv nm rm = Ok (Exhausted (Some (n, m))) ->
    (m | d).
Proof.
  unfold nonzero_moduli.
  induction rm as [| [a2 m2] rest IH]; intros [a1 m1] nm n m Hm1 Hnz Hne
    Hrv Hall Hloop; [contradiction|].
  inversion Hnz as [| ? ? Hm2 Hrest]; subst.
  inversion Hall as [| ? ? Hd Hdrest]; subst.
  destruct (solve_loop_step _ _ _ _ _ _ Hm1 Hm2 Hloop)
    as (a & m' & Hcomb & Hm' & Hnext).
  cbn [fst snd] in Hm1, Hm2, Hrv, Hd.
  assert (Hm'd : (m' | d)).
  { apply Z.divide_abs_l. rewrite (combine_lcm _ _ _ _ _ _ Hm2 Hcomb).
    apply Z.lcm_least; assumption. }
  destruct rest as [| rmi rest'].
  - cbn [solve_loop] in Hnext. injection Hnext as <- <-. assumption.
  - eapply (IH (a, m')); try eassumption; [discriminate].
Qed.

(** Every modulus that was folded divides the modulus the loop ends
    with. *)
Lemma solve_loop_multiple (rm : list (Z * Z)) (rv : Z * Z)
    (nm : option (Z * Z)) (n m : Z) :
  snd rv <> 0 -> nonzero_moduli rm -> rm <> [] ->
  solve_loop rv nm rm = Ok (Exhausted (Some (n, m))) ->
  Forall (fun am => (snd am | m)) rm.
Proof.
  intros Hrv Hnz Hne Hloop.
  destruct (solve_loop_sound rm rv nm Hrv Hnz)
    as [E | (rv' & E & _ & _ & _ & _ & Hall & _)];
    rewrite E in Hloop; [discriminate|].
  destruct rm as [| rmi rest]; [contradiction|].
  cbn [final_locals] in Hloop. injection Hloop as _ <-.
  eapply Forall_impl; [|exact Hall]. intros am [H _]. exact H.
Qed.

(** The pairs kept by the [if check] block have the moduli of the input:
    the same integers are common multiples of both. *)
Lemma check_pairs_moduli (rm rm' : list (Z * Z)) (d : Z) :
  nonzero_moduli rm -> check_pairs rm = Ok (Some rm') ->
  (Forall (fun am => (snd am | d)) rm' <->
   Forall (fun am => (snd am | d)) rm).
Proof.
  intros Hnz. unfold check_pairs.
  destruct (check_loop_sound rm [] Hnz)
    as [-> | (uniq & -> & _ & Hall & Horig & _)]; cbn [bind];
    [discriminate|].
  intros [= <-]. rewrite !Forall_forall. split.
  - intros H [r m] Hin. rewrite Forall_forall in Hall.
    apply (H (r mod m, m)). apply in_map_iff. exists (m, r mod m).
    split; [reflexivity|]. apply (Hall _ Hin).
  - intros H am' Hin. apply in_map_iff in Hin.
    destruct Hin as ([m r] & <- & Hin).
    destruct (Horig _ Hin) as [[] | (am & Ham & E)].
    unfold item_of in E. injection E as -> _. cbn [snd].
    apply (H _ Ham).
Qed.

(** X9: when [solve_congruence] returns a value on a system with nonzero
    moduli, the combined modulus [m] the loop ends with is a least
    common multiple of the input moduli: every input modulus divides
    [m], and [m] divides every common multiple of the input moduli. *)
Theorem solve_congruence_modulus_lcm (pairs : list (Z * Z)) (check : bool)
    (n : Z) :
  nonzero_moduli pairs ->
  solve_congruence pairs check = Ok (PyInt n) ->
  exists rm m,
    folded_pairs pairs check = Ok (Some rm) /\
    solve_loop (0, 1) None rm = Ok (Exhausted (Some (n, m))) /\
    Forall (fun am => (snd am | m)) pairs /\
    (forall d, Forall (fun am => (snd am | d)) pairs -> (m | d)).
Proof.
  intros Hnz Hres.
  destruct pairs as [| am pairs'].
  { rewrite solve_congruence_empty in Hres. discriminate. }
  destruct (solve_congruence_cases (am :: pairs') check Hnz
              ltac:(discriminate))
    as [E | (rm & n' & m & Hpre & Hloop & E & _)];
    rewrite E in Hres; [discriminate|].
  injection Hres as <-. exists rm, m.
  split; [assumption|]. split; [assumption|].
  assert (Hrm : nonzero_moduli rm /\ rm <> [] /\
                forall d, Forall (fun am => (snd am | d)) rm <->
                          Forall (fun am => (snd am | d)) (am :: pairs')).
  { destruct check; cbn [folded_pairs] in Hpre.
    - destruct (check_pairs_sound (am :: pairs') Hnz)
        as [E' | (rm' & E' & Hrnz & _ & Hrne & _)];
        rewrite E' in Hpre; [discriminate|].
      injection Hpre as <-.
      split; [assumption|]. split; [apply Hrne; discriminate|].
      intros d. apply check_pairs_moduli; assumption.
    - injection Hpre as <-.
      split; [assumption|]. split; [discriminate|]. intros d. reflexivity. }
  destruct Hrm as (Hrnz & Hrne & Hsame). split.
  - apply Hsame.
    apply (solve_loop_multiple rm (0, 1) None n' m); try assumption.
    discriminate.
  - intros d Hd.
    apply (solve_loop_common_multiple d rm (0, 1) None n' m);
      try assumption; try discriminate.
    + apply Z.divide_1_l.
    + apply Hsame. assumption.
Qed.

Lemma solve_congruence_modulus_lcm_witness :
  exists rm m,
    folded_pairs [(2, 4); (0, 6); (6, 4)] true = Ok (Some rm) /\
    solve_loop (0, 1) None rm = Ok (Exhausted (Some (6, m))) /\
    Forall (fun am => (snd am | m)) [(2, 4); (0, 6); (6, 4)] /\
    (forall d, Forall (fun am => (snd am | d)) [(2, 4); (0, 6); (6, 4)] ->
               (m | d)).
Proof.
  apply (solve_congruence_modulus_lcm [(2, 4); (0, 6); (6, 4)] true 6).
  - repeat constructor; simpl; lia.
  - vm_compute. reflexivity.
Defined.

Lemma solves_congruent (x : Z) (pairs : list (Z * Z)) :
  nonzero_moduli pairs -> (solves x pairs <-> Forall (congruent x) pairs).
Proof.
  intros Hnz. unfold solves. symmetry.
  apply congruent_all_iff_mod. assumption.
Qed.

Lemma positive_nonzero (pairs : list (Z * Z)) :
  positive_moduli pairs -> nonzero_moduli pairs.
Proof.
  unfold positive_moduli, nonzero_moduli. intros H.
  eapply Forall_impl; [|exact H]. cbn beta. intros am Ham. lia.
Qed.

(** On a non-empty system with positive moduli the result is [None] when
    there is no solution and the smallest nonnegative solution
    otherwise. *)
Lemma solve_congruence_least_cases (pairs : list (Z * Z)) (check : bool) :
  pairs <> [] -> positive_moduli pairs ->
  (solve_congruence pairs check = Ok PyNone /\ ~ satisfiable pairs) \/
  (exists n, solve_congruence pairs check = Ok (PyInt n) /\
             least_solution n pairs).
Proof.
  intros Hne Hpos. pose proof (positive_nonzero pairs Hpos) as Hnz.
  destruct (solve_congruence_cases pairs check Hnz Hne)
    as [E | (rm & n & m & Hpre & Hloop & E & Hm & Hred & Hall & Hmpos)].
  - left. split; [assumption|]. intros [x Hx].
    apply (solves_congruent x pairs Hnz) in Hx.
    exact (solve_congruence_complete pairs check x Hnz Hx E).
  - right. exists n. split; [assumption|].
    specialize (Hmpos Hpos).
    pose proof (Z.mod_pos_bound n m Hmpos) as Hbound.
    rewrite <- Hred in Hbound.
    split; [lia|]. split; [apply solves_congruent; assumption|].
    intros x Hx0 Hx. apply (solves_congruent x pairs Hnz) in Hx.
    assert (Hrm : nonzero_moduli rm /\ rm <> [] /\ Forall (congruent x) rm).
    { destruct check; cbn [folded_pairs] in Hpre.
      - destruct (check_pairs_sound pairs Hnz)
          as [E' | (rm' & E' & Hrnz & _ & Hrne & Hiff)];
          rewrite E' in Hpre; [discriminate|].
        injection Hpre as <-.
        split; [assumption|]. split; [apply Hrne; assumption|].
        apply Hiff. assumption.
      - injection Hpre as <-. repeat split; assumption. }
    destruct Hrm as (Hrnz & Hrne & Hxrm).
    destruct (solve_loop_solution x rm (0, 1) None n m
                ltac:(discriminate) Hrnz Hrne
                ltac:(exists x; cbn; ring) Hxrm Hloop) as [k Hk].
    destruct (Z.le_gt_cases 0 k) as [Hk0 | Hk0]; [nia|].
    assert (k * m <= - m) by nia. lia.
Qed.

(** X10: on a non-empty system with positive moduli, whatever [check]
    is, [solve_congruence] returns [None] exactly when the system has no
    solution, and otherwise the smallest nonnegative solution. *)
Theorem solve_congruence_least (pairs : list (Z * Z)) (check : bool) :
  pairs <> [] -> positive_moduli pairs ->
  (solve_congruence pairs check = Ok PyNone <-> ~ satisfiable pairs) /\
  (forall n, solve_congruence pairs check = Ok (PyInt n) <->
             least_solution n pairs).
Proof.
  intros Hne Hpos.
  destruct (solve_congruence_least_cases pairs check Hne Hpos)
    as [[E Hunsat] | (n & E & Hleast)].
  - split.
    + split; intros; assumption.
    + intros n'. rewrite E. split; [discriminate|].
      intros (_ & Hs & _). exfalso. apply Hunsat. exists n'. exact Hs.
  - split.
    + rewrite E. split; [discriminate|].
      intros Hunsat. exfalso. apply Hunsat. exists n.
      destruct Hleast as (_ & Hs & _). exact Hs.
    + intros n'. rewrite E. split.
      * intros [= <-]. assumption.
      * intros (H0' & Hs' & Hmin'). destruct Hleast as (H0 & Hs & Hmin).
        pose proof (Hmin n' H0' Hs'). pose proof (Hmin' n H0 Hs).
        do 2 f_equal. lia.
Qed.

Lemma solve_congruence_least_witness :
  (solve_congruence [(2, 3); (3, 5); (2, 7)] true = Ok PyNone <->
   ~ satisfiable [(2, 3); (3, 5); (2, 7)]) /\
  (forall n, solve_congruence [(2, 3); (3, 5); (2, 7)] true = Ok (PyInt n)
             <-> least_solution n [(2, 3); (3, 5); (2, 7)]).
Proof.
  apply (solve_congruence_least [(2, 3); (3, 5); (2, 7)] true).
  - discriminate.
  - repeat constructor; simpl; lia.
Defined.

(** Two non-empty systems with positive moduli and the same solutions
    get the same result, whatever the two [check] flags are. *)
Lemma solve_congruence_same_solutions (pairs pairs' : list (Z * Z))
    (check check' : bool) :
  pairs <> [] -> pairs' <> [] ->
  positive_moduli pairs -> positive_moduli pairs' ->
  (forall x, solves x pairs <-> solves x pairs') ->
  solve_congruence pairs check = solve_congruence pairs' check'.
Proof.
  intros Hne Hne' Hpos Hpos' Hsame.
  destruct (solve_congruence_least_cases pairs check Hne Hpos)
    as [[E Hunsat] | (n & E & H0 & Hs & Hmin)];
    destruct (solve_congruence_least_cases pairs' check' Hne' Hpos')
      as [[E' Hunsat'] | (n' & E' & H0' & Hs' & Hmin')];
    rewrite E, E'.
  - reflexivity.
  - exfalso. apply Hunsat. exists n'. apply Hsame. assumption.
  - exfalso. apply Hunsat'. exists n. apply Hsame. assumption.
  - pose proof (Hmin n' H0' (proj2 (Hsame n') Hs')).
    pose proof (Hmin' n H0 (proj1 (Hsame n) Hs)).
    do 2 f_equal. lia.
Qed.

(** X11: for positive moduli the [check] flag does not change the
    result: skipping the pass over [uniq] gives the same value, the same
    [None] and, on the empty sequence, the same exception. *)
Theorem solve_congruence_check_irrelevant (pairs : list (Z * Z)) :
  positive_moduli pairs ->
  solve_congruence pairs false = solve_congruence pairs true.
Proof.
  intros Hpos. destruct pairs as [| am pairs'].
  - rewrite !solve_congruence_empty. reflexivity.
  - apply solve_congruence_same_solutions;
      try assumption; try discriminate.
    intros x. reflexivity.
Qed.

Lemma solve_congruence_check_irrelevant_witness :
  solve_congruence [(2, 4); (0, 6); (6, 4)] false
  = solve_congruence [(2, 4); (0, 6); (6, 4)] true.
Proof.
  apply (solve_congruence_check_irrelevant [(2, 4); (0, 6); (6, 4)]).
  repeat constructor; simpl; lia.
Defined.

(** X12: for positive moduli the order of the pairs does not change the
    result. *)
Theorem solve_congruence_permutation (pairs pairs' : list (Z * Z))
    (check : bool) :
  Permutation pairs pairs' -> positive_moduli pairs ->
  solve_congruence pairs check = solve_congruence pairs' check.
Proof.
  intros Hperm Hpos.
  assert (Hpos' : positive_moduli pairs')
    by (eapply Permutation_Forall; eassumption).
  destruct pairs as [| am rest].
  - apply Permutation_nil in Hperm. subst. reflexivity.
  - apply solve_congruence_same_solutions; try assumption.
    + discriminate.
    + intros ->. apply Permutation_sym, Permutation_nil in Hperm.
      discriminate.
    + intros x. unfold solves. split; intros H.
      * eapply Permutation_Forall; eassumption.
      * eapply Permutation_Forall; [apply Permutation_sym|]; eassumption.
Qed.

Lemma solve_congruence_permutation_witness :
  solve_congruence [(2, 3); (3, 5); (2, 7)] true
  = solve_congruence [(3, 5); (2, 3); (2, 7)] true.
Proof.
  apply (solve_congruence_permutation [(2, 3); (3, 5); (2, 7)]
           [(3, 5); (2, 3); (2, 7)] true).
  - apply perm_swap.
  - repeat constructor; simpl; lia.
Defined.

(** X13: a single pair [(a, m)] with a nonzero modulus gives [a % m],
    whatever [check] is: the starting constraint [(0, 1)] is neutral for
    [combine]. *)
Theorem solve_congruence_single (a m : Z) (check : bool) :
  m <> 0 ->
  combine (0, 1) (a, m) = Ok (Some (a, m)) /\
  solve_congruence [(a, m)] check = Ok (PyInt (a mod m)).
Proof.
  intros Hm. split; [apply combine_identity|].
  assert (Hfold : forall r, solve_fold [(r, m)] = Ok (PyInt (r mod m))).
  { intros r. unfold solve_fold. cbn [solve_loop].
    rewrite combine_identity. cbn [bind]. unfold pymod.
    destruct (Z.eqb_spec m 0) as [E | _]; [contradiction|]. reflexivity. }
  unfold solve_congruence. destruct check; cbn [folded_pairs].
  - unfold check_pairs. cbn [check_loop]. unfold pymod.
    destruct (Z.eqb_spec m 0) as [E | _]; [contradiction|].
    cbn [bind uniq_get app map]. rewrite Hfold.
    rewrite Z.mod_mod by assumption. reflexivity.
  - cbn [bind]. apply Hfold.
Qed.

Lemma solve_congruence_single_witness :
  combine (0, 1) (-7, 5) = Ok (Some (-7, 5)) /\
  solve_congruence [(-7, 5)] true = Ok (PyInt (-7 mod 5)).
Proof. apply (solve_congruence_single (-7) 5 true). lia. Defined.

Lemma check_loop_residue_classes (rm rm' : list (Z * Z)) :
  Forall2 (fun p q => snd p = snd q /\ (snd p | fst p - fst q)) rm rm' ->
  forall uniq, check_loop rm uniq = check_loop rm' uniq.
Proof.
  induction 1 as [| [r m] [r' m'] rm rm' [Hm [k Hk]] _ IH]; intros uniq;
    [reflexivity|].
  cbn [fst snd] in Hm, Hk. subst m'. cbn [check_loop]. unfold pymod.
  destruct (Z.eqb_spec m 0) as [E | Hm]; [reflexivity|]. cbn [bind].
  replace (r mod m) with (r' mod m).
  - destruct (uniq_get m uniq) as [r0 |]; [|apply IH].
    destruct (negb (r' mod m =? r0)); [reflexivity | apply IH].
  - replace r with (r' + k * m) by lia. symmetry. apply Z.mod_add.
    assumption.
Qed.

(** X14: with [check=True] only the residue classes matter: replacing
    residues by integers congruent to them modulo their moduli leaves
    the result, [None] or exception unchanged. *)
Theorem solve_congruence_residue_classes (pairs pairs' : list (Z * Z)) :
  Forall2 (fun p q => snd p = snd q /\ (snd p | fst p - fst q))
          pairs pairs' ->
  solve_congruence pairs true = solve_congruence pairs' true.
Proof.
  intros H. unfold solve_congruence. cbn [folded_pairs].
  unfold check_pairs.
  rewrite (check_loop_residue_classes pairs pairs' H). reflexivity.
Qed.

Lemma solve_congruence_residue_classes_witness :
  solve_congruence [(2, 3); (3, 5); (2, 7)] true
  = solve_congruence [(-1, 3); (13, 5); (702, 7)] true.
Proof.
  apply (solve_congruence_residue_classes
           [(2, 3); (3, 5); (2, 7)] [(-1, 3); (13, 5); (702, 7)]).
  repeat constructor; simpl.
  - exists 1. reflexivity.
  - exists (-2). reflexivity.
  - exists (-100). reflexivity.
Defined.

(** ** solve_congruence and crt: zero moduli *)

Lemma check_loop_zero (rm : list (Z * Z)) :
  Exists (fun am => snd am = 0) rm ->
  forall uniq,
    check_loop rm uniq = Raise ZeroDivisionError \/
    check_loop rm uniq = Ok None.
Proof.
  induction rm as [| [r m] rest IH]; intros Hex uniq.
  - inversion Hex.
  - cbn [check_loop]. unfold pymod.
    destruct (Z.eqb_spec m 0) as [E | Hm]; [left; reflexivity|].
    cbn [bind].
    assert (Hrest : Exists (fun am => snd am = 0) rest).
    { inversion Hex as [? ? H | ? ? H]; subst; [contradiction | exact H]. }
    destruct (uniq_get m uniq) as [r0 |]; [|apply IH; assumption].
    destruct (negb (r mod m =? r0)); [right; reflexivity|].
    apply IH. assumption.
Qed.

Lemma combine_zero (a1 m1 a2 : Z) :
  m1 <> 0 ->
  combine (a1, m1) (a2, 0) = Ok None \/
  exists a, combine (a1, m1) (a2, 0) = Ok (Some (a, 0)).
Proof.
  intros Hm1. unfold combine. unfold floordiv.
  destruct (Z.eqb_spec (Z.gcd (Z.gcd m1 (a2 - a1)) 0) 0) as [E | _].
  - exfalso. apply Z.gcd_eq_0_l in E. apply Z.gcd_eq_0_l in E.
    contradiction.
  - cbn [bind]. rewrite Z.div_0_l, Z.mul_0_r
      by (intros E; apply Z.gcd_eq_0_l, Z.gcd_eq_0_l in E; contradiction).
    destruct (negb _).
    + destruct (gcdex _ 0) as [[inv_a t] g2].
      destruct (negb _); [left; reflexivity | right; eexists; reflexivity].
    + right. eexists. reflexivity.
Qed.

Lemma solve_loop_zero (rm : list (Z * Z)) :
  Exists (fun am => snd am = 0) rm ->
  forall rv nm,
    snd rv <> 0 ->
    solve_loop rv nm rm = Raise ZeroDivisionError \/
    solve_loop rv nm rm = Ok Broke.
Proof.
  induction rm as [| [a2 m2] rest IH]; intros Hex [a1 m1] nm Hm1.
  - inversion Hex.
  - cbn [fst snd] in Hm1. cbn [solve_loop].
    destruct (Z.eq_dec m2 0) as [-> | Hm2].
    + destruct (combine_zero a1 m1 a2 Hm1) as [-> | [a ->]]; cbn [bind].
      * right. reflexivity.
      * left. reflexivity.
    + assert (Hrest : Exists (fun am => snd am = 0) rest).
      { inversion Hex as [? ? H | ? ? H]; subst;
          [contradiction | exact H]. }
      destruct (combine_sound a1 m1 a2 m2 Hm1 Hm2)
        as [-> | (a & m & -> & Hm & _)]; cbn [bind];
        [right; reflexivity|].
      unfold pymod. destruct (Z.eqb_spec m 0) as [E | _]; [contradiction|].
      cbn [bind]. apply IH; assumption.
Qed.

(** X15: when some modulus is zero, [solve_congruence] never returns a
    value: it raises [ZeroDivisionError], or returns [None] if it meets
    an inconsistency before it divides by that modulus. *)
Theorem solve_congruence_zero_modulus (pairs : list (Z * Z)) (check : bool) :
  Exists (fun am => snd am = 0) pairs ->
  solve_congruence pairs check = Raise ZeroDivisionError \/
  solve_congruence pairs check = Ok PyNone.
Proof.
  intros Hex. unfold solve_congruence. destruct check; cbn [folded_pairs].
  - unfold check_pairs.
    destruct (check_loop_zero pairs Hex []) as [-> | ->]; cbn [bind];
      [left | right]; reflexivity.
  - cbn [bind]. unfold solve_fold.
    destruct (solve_loop_zero pairs Hex (0, 1) None ltac:(discriminate))
      as [-> | ->]; cbn [bind]; [left | right]; reflexivity.
Qed.

Lemma solve_congruence_zero_modulus_witness :
  solve_congruence [(1, 2); (0, 0)] false = Raise ZeroDivisionError \/
  solve_congruence [(1, 2); (0, 0)] false = Ok PyNone.
Proof.
  apply (solve_congruence_zero_modulus [(1, 2); (0, 0)] false).
  apply Exists_cons_tl. apply Exists_cons_hd. reflexivity.
Defined.

(** ** crt with the residue test *)

Lemma not_in_zero_nonzero (M : list Z) :
  ~ In 0 M -> Forall (fun m => m <> 0) M.
Proof.
  intros Hnin. apply Forall_forall. intros m Hm ->. contradiction.
Qed.

(** X16: when no modulus is zero, [crt(m, v, check=True)] does not
    raise.  It returns [None] only if the zipped system has no solution,
    and an integer it returns satisfies [n % m_i == v_i % m_i] for every
    zipped pair, also when the moduli are not coprime. *)
Theorem crt_checked (M V : list Z) :
  ~ In 0 M ->
  (exists n, crt M V true = Ok (PyInt n) /\ solves n (zip V M)) \/
  (crt M V true = Ok PyNone /\ ~ satisfiable (zip V M)).
Proof.
  intros Hnin. pose proof (not_in_zero_nonzero M Hnin) as HM.
  pose proof (zip_moduli_nonzero V M HM) as Hnz.
  destruct (proj2 (_crt_zero_modulus_aux V M) Hnin) as [v Hv].
  unfold crt. rewrite Hv. cbn [bind].
  rewrite all_residues_nonzero by assumption. cbn [bind].
  destruct (forallb _ (zip V M)) eqn:Hall; cbn [negb].
  - left. exists v. split; [reflexivity|].
    rewrite forallb_forall in Hall. apply Forall_forall.
    intros vm Hin. symmetry. apply Z.eqb_eq, Hall, Hin.
  - assert (Hne : zip V M <> []) by (intros E; rewrite E in Hall;
                                     discriminate).
    destruct (solve_congruence_cases (zip V M) false Hnz Hne)
      as [E | (rm & n & m & _ & _ & E & _ & _ & Hcong & _)].
    + right. split; [assumption|]. intros [x Hx].
      apply (solves_congruent x (zip V M) Hnz) in Hx.
      exact (solve_congruence_complete (zip V M) false x Hnz Hx E).
    + left. exists n. split; [assumption|].
      apply solves_congruent; assumption.
Qed.

Lemma crt_checked_witness :
  (exists n, crt [3; 6] [2; 5] true = Ok (PyInt n) /\
             solves n (zip [2; 5] [3; 6])) \/
  (crt [3; 6] [2; 5] true = Ok PyNone /\
   ~ satisfiable (zip [2; 5] [3; 6])).
Proof. apply (crt_checked [3; 6] [2; 5]). simpl. lia. Defined.

Lemma nth_error_zip_intro {A B : Type} (l : list A) (k : list B) :
  forall i a b,
    nth_error l i = Some a -> nth_error k i = Some b ->
    nth_error (zip l k) i = Some (a, b).
Proof.
  unfold zip. revert k.
  induction l as [| x l IH]; intros [| y k] [| i] a b Ha Hb; simpl in *;
    try discriminate.
  - congruence.
  - apply IH; assumption.
Qed.

(** X17: on non-empty sequences of equal length with pairwise coprime
    positive moduli, the general solver and the direct formula agree:
    [solve_congruence] on the zipped pairs returns the value of [_crt],
    and so does [crt], whatever [check] is. *)
Theorem solve_congruence_agrees_with_crt (U M : list Z) (check : bool) :
  M <> [] -> length U = length M ->
  pairwise_coprime M = true ->
  Forall (fun m => 0 < m) M ->
  exists v,
    _crt U M = Ok v /\
    solve_congruence (zip U M) check = Ok (PyInt v) /\
    crt M U check = Ok (PyInt v).
Proof.
  intros HMne Hlen Hcop Hpos.
  assert (Hnz : Forall (fun m => m <> 0) M).
  { eapply Forall_impl; [|exact Hpos]. cbn beta. intros; lia. }
  destruct (_crt_congruences U M Hcop Hnz) as (v & Hv & _ & Hred & Hcong).
  pose proof (prod_pos M Hpos) as Hp.
  pose proof (Z.mod_pos_bound v (prod M) Hp) as Hbound.
  rewrite <- Hred in Hbound.
  exists v. split; [assumption|]. split.
  2:{ destruct (crt_coprime M U check Hcop Hnz) as (v' & Hv' & Hcrt).
      congruence. }
  assert (Hzne : zip U M <> []).
  { destruct U, M; simpl in *; try discriminate; congruence. }
  assert (Hzpos : positive_moduli (zip U M)).
  { apply Forall_forall. intros [u m] Hin. apply in_combine_r in Hin.
    rewrite Forall_forall in Hpos. cbn [snd]. apply Hpos. assumption. }
  pose proof (positive_nonzero _ Hzpos) as Hznz.
  assert (Hvsol : solves v (zip U M)).
  { apply solves_congruent; [assumption|]. apply Forall_forall.
    intros [u m] Hin. apply In_nth_error in Hin. destruct Hin as [i Hi].
    apply nth_error_zip in Hi. destruct Hi as [Hu Hm].
    exact (Hcong i u m Hu Hm). }
  destruct (solve_congruence_least_cases (zip U M) check Hzne Hzpos)
    as [[_ Hunsat] | (n & E & Hn0 & Hnsol & Hmin)].
  - exfalso. apply Hunsat. exists v. assumption.
  - rewrite E. do 2 f_equal.
    pose proof (Hmin v (proj1 Hbound) Hvsol) as Hle.
    assert (Hdiv : (prod M | n - v)).
    { apply (solutions_differ_by_prod U M n v Hcop Hnz); try assumption.
      - lia.
      - intros i u m Hu Hm. unfold solves in Hnsol.
        rewrite Forall_forall in Hnsol.
        apply (Hnsol (u, m)). eapply nth_error_In.
        apply nth_error_zip_intro; eassumption. }
    destruct Hdiv as [k Hk].
    destruct (Z.eq_dec k 0) as [-> | Hk0]; [lia|].
    assert (prod M <= Z.abs (k * prod M)) by (rewrite Z.abs_mul; nia).
    lia.
Qed.

Lemma solve_congruence_agrees_with_crt_witness :
  exists v,
    _crt [49; 76; 65] [99; 97; 95] = Ok v /\
    solve_congruence (zip [49; 76; 65] [99; 97; 95]) true = Ok (PyInt v) /\
    crt [99; 97; 95] [49; 76; 65] true = Ok (PyInt v).
Proof.
  apply (solve_congruence_agrees_with_crt [49; 76; 65] [99; 97; 95] true).
  - discriminate.
  - reflexivity.
  - vm_compute. reflexivity.
  - repeat constructor; lia.
Defined.

(** X18: with a single nonzero modulus [m], [_crt([u], [m])] is [u % m],
    and [crt([m], [u])] returns that value whatever [check] is. *)
Theorem crt_single (u m : Z) (check : bool) :
  m <> 0 ->
  _crt [u] [m] = Ok (u mod m) /\
  crt [m] [u] check = Ok (PyInt (u mod m)).
Proof.
  intros Hm.
  assert (Hcop : pairwise_coprime [m] = true) by reflexivity.
  assert (Hnz : Forall (fun m' => m' <> 0) [m])
    by (repeat constructor; assumption).
  destruct (_crt_congruences [u] [m] Hcop Hnz) as (v & Hv & _ & Hred & Hcong).
  assert (Hvm : v = u mod m).
  { rewrite prod_cons in Hred. change (prod []) with 1 in Hred.
    rewrite Z.mul_1_r in Hred. rewrite Hred.
    destruct (Hcong 0%nat u m eq_refl eq_refl) as [k Hk].
    replace v with (u + k * m) by lia. apply Z.mod_add. assumption. }
  subst v. split; [assumption|].
  destruct (crt_coprime [m] [u] check Hcop Hnz) as (v' & Hv' & Hcrt).
  congruence.
Qed.

Lemma crt_single_witness :
  _crt [-7] [5] = Ok (-7 mod 5) /\ crt [5] [-7] true = Ok (PyInt (-7 mod 5)).
Proof. apply (crt_single (-7) 5 true). lia. Defined.

(** ** gcdex: the size of the coefficients *)

Lemma abs_sub_opposite (x r q : Z) :
  x * r <= 0 -> 0 <= q -> Z.abs (x - q * r) = Z.abs x + q * Z.abs r.
Proof.
  intros Hxr Hq.
  destruct (Z.lt_trichotomy r 0) as [Hr | [-> | Hr]].
  - assert (Hx : 0 <= x).
    { destruct (Z.lt_ge_cases x 0) as [Hneg | Hge]; [|assumption].
      pose proof (Z.mul_neg_neg x r Hneg Hr). lia. }
    pose proof (Z.mul_nonneg_nonpos q r Hq ltac:(lia)) as Hqr.
    rewrite (Z.abs_neq r) by lia. rewrite Z.mul_opp_r. lia.
  - rewrite Z.mul_0_r. simpl. lia.
  - assert (Hx : x <= 0).
    { destruct (Z.le_gt_cases x 0) as [Hle | Hpos]; [assumption|].
      pose proof (Z.mul_pos_pos x r Hpos Hr). lia. }
    pose proof (Z.mul_nonneg_nonneg q r Hq ltac:(lia)) as Hqr.
    rewrite (Z.abs_eq r) by lia. lia.
Qed.

Lemma opposite_signs_step (x r q : Z) :
  x * r <= 0 -> 0 <= q -> r * (x - q * r) <= 0.
Proof.
  intros Hxr Hq.
  pose proof (Z.mul_nonneg_nonneg q (r * r) Hq (Z.square_nonneg r)) as H.
  replace (r * (x - q * r)) with (x * r - q * (r * r)) by ring. lia.
Qed.

(** The body of the loop keeps both invariants. *)
Lemma gcdex_coeff_inv_body (a0 b0 : Z) (st : gstate) :
  0 < a0 -> 0 < b0 ->
  g_b st <> 0 ->
  gcdex_inv a0 b0 st /\ gcdex_coeff_inv st ->
  gcdex_inv a0 b0 (gcdex_body st) /\ gcdex_coeff_inv (gcdex_body st).
Proof.
  intros _ _ Hb [Hinv Hco].
  split; [apply gcdex_inv_body; assumption|].
  destruct Hinv as (Ha & Hb' & _).
  destruct Hco as (Hxr & Hys & Hdet & Hcases).
  clear a0 b0. destruct st as [a b r s x y].
  unfold gcdex_coeff_inv, gcdex_body in *.
  cbn [g_a g_b g_r g_s g_x g_y] in *.
  assert (Hbpos : 0 < b) by lia.
  pose proof (Z.mod_pos_bound a b Hbpos) as Hmod.
  assert (Hq : 0 <= a / b) by (apply Z.div_pos; assumption).
  assert (Hq1 : b < a -> 1 <= a / b)
    by (intros Hlt; apply Z.div_le_lower_bound; lia).
  set (q := a / b) in *. clearbody q.
  split; [apply opposite_signs_step; assumption|].
  split; [apply opposite_signs_step; assumption|]. split.
  { replace (r * (y - q * s) - s * (x - q * r)) with (- (x * s - y * r))
      by ring.
    rewrite Z.abs_opp. assumption. }
  pose proof (abs_sub_opposite x r q Hxr Hq) as Hax.
  pose proof (abs_sub_opposite y s q Hys Hq) as Hay.
  clear Hxr Hys Hdet Ha Hb Hb'.
  destruct Hcases
    as [(Er & Es & Ex & Ey)
       | [(Hlt & Er & Es & Ex & Ey) | (Hlt & Hbx & Hby)]].
  - subst r s x y. clear Hax Hay Hq1.
    destruct (Z.eq_dec q 0) as [Hq0 | Hq0].
    + right. left. subst q. repeat split; try reflexivity. lia.
    + right. right. rewrite Z.mul_0_r, Z.mul_1_r.
      change (Z.abs 0) with 0. change (Z.abs 1) with 1.
      rewrite Z.sub_0_r, Z.sub_0_l, Z.abs_opp.
      change (Z.abs 1) with 1. repeat split; lia.
  - subst r s x y. specialize (Hq1 Hlt). clear Hax Hay.
    right. right. rewrite Z.mul_0_r, Z.mul_1_r.
    change (Z.abs 0) with 0. change (Z.abs 1) with 1.
    rewrite Z.sub_0_r, Z.sub_0_l, Z.abs_opp.
    change (Z.abs 1) with 1. repeat split; lia.
  - specialize (Hq1 Hlt). right. right. split; [lia|].
    rewrite Hax, Hay. clear Hax Hay Hmod Hlt Hbpos.
    pose proof (Z.abs_nonneg x) as Hx0. pose proof (Z.abs_nonneg y) as Hy0.
    pose proof (Z.mul_le_mono_nonneg_r 1 q (Z.abs r) (Z.abs_nonneg r) Hq1)
      as Hr1.
    pose proof (Z.mul_le_mono_nonneg_r 1 q (Z.abs s) (Z.abs_nonneg s) Hq1)
      as Hs1.
    rewrite Z.mul_1_l in Hr1, Hs1.
    revert Hx0 Hy0 Hr1 Hs1. clear.
    generalize (Z.abs x) (Z.abs y) (Z.abs r) (Z.abs s)
               (q * Z.abs r) (q * Z.abs s).
    intros ax ay ar a_s qr qs Hx0 Hy0 Hr1 Hs1. split; lia.
Qed.

(** When the loop is left, [|r| * a] and [|s| * a] are the two inputs,
    which bounds the coefficients. *)
Lemma gcdex_loop_bounds (a0 b0 : Z) :
  0 < a0 -> 0 < b0 ->
  let st := gcdex_loop (GState a0 b0 0 1 1 0) in
  Z.abs (g_x st) * g_a st <= b0 /\ Z.abs (g_y st) * g_a st <= a0.
Proof.
  intros Ha0 Hb0 st.
  destruct (gcdex_loop_rule
              (fun st => gcdex_inv a0 b0 st /\ gcdex_coeff_inv st)
              (fun st Hb H => gcdex_coeff_inv_body a0 b0 st Ha0 Hb0 Hb H)
              (GState a0 b0 0 1 1 0))
    as [[Hinv Hco] Hz].
  { split; [apply gcdex_inv_init; lia|].
    unfold gcdex_coeff_inv. cbn [g_a g_b g_r g_s g_x g_y].
    split; [lia|]. split; [lia|]. split; [reflexivity|].
    left. repeat split. }
  fold st in Hinv, Hco, Hz. clearbody st.
  destruct st as [a b r s x y].
  unfold gcdex_inv, gcdex_coeff_inv in *.
  cbn [g_a g_b g_r g_s g_x g_y] in *.
  destruct Hinv as (Ha & _ & Hx & Hr & _).
  destruct Hco as (_ & _ & Hdet & Hcases).
  rewrite Hz in Hr, Hcases. clear Hz b.
  destruct Hcases
    as [(Er & Es & _) | [(_ & Er & Es & _) | (_ & Hbx & Hby)]].
  - subst r s. rewrite Z.mul_0_l, Z.mul_1_l in Hr. lia.
  - subst r s. rewrite Z.mul_0_l, Z.mul_1_l in Hr. lia.
  - assert (Hsb : s * b0 = - (r * a0)) by lia.
    assert (Hs : s * a = (x * s - y * r) * a0).
    { rewrite <- Hx.
      replace (s * (x * a0 + y * b0)) with (x * s * a0 + y * (s * b0))
        by ring.
      rewrite Hsb. ring. }
    assert (Hrr : r * a = - (x * s - y * r) * b0).
    { rewrite <- Hx.
      replace (r * (x * a0 + y * b0)) with (x * (r * a0) + y * r * b0)
        by ring.
      replace (r * a0) with (- (s * b0)) by (rewrite Hsb; ring). ring. }
    assert (HsA : Z.abs s * a = a0).
    { rewrite <- (Z.abs_eq a) at 1 by assumption.
      rewrite <- Z.abs_mul, Hs, Z.abs_mul, Hdet, Z.mul_1_l.
      apply Z.abs_eq. apply Z.lt_le_incl. assumption. }
    assert (HrA : Z.abs r * a = b0).
    { rewrite <- (Z.abs_eq a) at 1 by assumption.
      rewrite <- Z.abs_mul, Hrr, Z.abs_mul, Z.abs_opp, Hdet, Z.mul_1_l.
      apply Z.abs_eq. apply Z.lt_le_incl. assumption. }
    split; [rewrite <- HrA | rewrite <- HsA];
      apply Z.mul_le_mono_nonneg_r; assumption.
Qed.

(** X19: for nonzero [a] and [b] the coefficients of [gcdex(a, b)] are
    bounded by the cofactors of the other operand: [|x| * g <= |b|] and
    [|y| * g <= |a|]. *)
Theorem gcdex_coefficient_bounds (a b : Z) :
  a <> 0 -> b <> 0 ->
  let '(x, y, g) := gcdex a b in
  Z.abs x * g <= Z.abs b /\ Z.abs y * g <= Z.abs a.
Proof.
  intros Ha Hb. unfold gcdex.
  destruct (Z.eqb_spec a 0) as [E | _]; [contradiction|].
  destruct (Z.eqb_spec b 0) as [E | _]; [contradiction|]. cbn [andb].
  destruct (Z.ltb_spec a 0) as [Han | Hap];
    destruct (Z.ltb_spec b 0) as [Hbn | Hbp].
  - destruct (gcdex_loop_bounds (- a) (- b) ltac:(lia) ltac:(lia))
      as [H1 H2].
    rewrite !Z.abs_mul. change (Z.abs (-1)) with 1. lia.
  - destruct (gcdex_loop_bounds (- a) b ltac:(lia) ltac:(lia)) as [H1 H2].
    rewrite !Z.abs_mul. change (Z.abs (-1)) with 1.
    change (Z.abs 1) with 1. lia.
  - destruct (gcdex_loop_bounds a (- b) ltac:(lia) ltac:(lia)) as [H1 H2].
    rewrite !Z.abs_mul. change (Z.abs (-1)) with 1.
    change (Z.abs 1) with 1. lia.
  - destruct (gcdex_loop_bounds a b ltac:(lia) ltac:(lia)) as [H1 H2].
    rewrite !Z.abs_mul. change (Z.abs 1) with 1. lia.
Qed.

Lemma gcdex_coefficient_bounds_witness :
  let '(x, y, g) := gcdex 100 (- 2004) in
  Z.abs x * g <= Z.abs (- 2004) /\ Z.abs y * g <= Z.abs 100.
Proof. apply (gcdex_coefficient_bounds 100 (- 2004)); lia. Defined.
